(** * BayesTreeCliqueBase-inst.h: the clique recursions of a Bayes tree

    A shallow embedding of [BayesTreeCliqueBaseUnordered] (file
    [BayesTreeCliqueBase-inst.h]): [equals], [print], [treeSize],
    [numCachedSeparatorMarginals], [separatorMarginal] and
    [deleteCachedShortcuts].

    - A clique is a node of a finitely branching tree: it owns its children
      ([shared_ptr]), so the children are subterms.  Its address ([this]) is a
      field, because the code compares addresses ([R.get() == this]) and
      follows the weak parent pointer ([parent_.lock()]).
    - [size_t] is a 64-bit unsigned integer: [Z] with the wrap-around written
      out.
    - A null pointer dereference has no defined behaviour in C++; the
      embedding makes it an explicit result, [Undefined].
    - The conditional, the factors and the elimination are template
      parameters of the class: they are the variables of the section. *)

From Stdlib Require Import ZArith List Lia Bool String PeanoNat Sorted.
Import ListNotations.
Local Open Scope Z_scope.

(** ** Machine integers *)

Definition size_t_modulus : Z := 2 ^ 64.

(** Arithmetic on [size_t] is modulo [2^64]. *)
Definition wrap (z : Z) : Z := z mod size_t_modulus.

(** ** Results of calls *)

(** What the C++ standard leaves undefined and the code can run into. *)
Inductive undefined_behaviour : Type :=
| NullConditional   (* [conditional_->...] with a null [conditional_] *)
| NullParent        (* [parent->...] where [parent_.lock()] gave null *)
| DanglingThis.     (* a method called through a pointer to no live clique *)

(** The result of a [const] method that writes nothing. *)
Inductive result (A : Type) : Type :=
| Value (a : A)
| Undef (u : undefined_behaviour).
Arguments Value {A} a.
Arguments Undef {A} u.

(** An address of a clique object. *)
Definition ptr : Type := nat.

Section BayesTreeCliqueBase.

(** The template parameters and what the class uses of them. *)
Context {Key Factor Conditional Tol Exn : Type}.

(** [FactorGraph<FactorType>]: a sequence of factors. *)
Definition FactorGraph : Type := list Factor.

(** [KeyFormatter]. *)
Definition KeyFormatter : Type := Key -> string.

(** [conditional->toFactor()]. *)
Variable toFactor : Conditional -> Factor.
(** [conditional->beginParents() .. endParents()]: the separator keys. *)
Variable parents : Conditional -> list Key.
(** [conditional->equals(other, tol)]. *)
Variable conditional_equals : Conditional -> Conditional -> Tol -> bool.
(** [conditional->print(s, keyFormatter)]: the text sent to the output. *)
Variable conditional_print : string -> KeyFormatter -> Conditional -> string.
(** Lines 182-206 of [separatorMarginal]: the keys of [p_Cp] are reduced,
    [GenericSequentialSolver(p_Cp).jointBayesNet(indicesS, function)] is
    called with the caller's elimination [function], and the reduction is
    undone.  The solver and the permutations are not part of this file: the
    whole step is one function of [p_Cp] and the separator keys, which
    either throws or gives the marginal. *)
Variable jointBayesNet : FactorGraph -> list Key -> Exn + FactorGraph.

(** ** The clique *)

#[local] Unset Elimination Schemes.
Inductive Clique : Type := mkClique {
  this : ptr;
  conditional_ : option Conditional;
  parent_ : option ptr;
  children : list Clique;
  cachedSeparatorMarginal_ : option FactorGraph
}.
#[local] Set Elimination Schemes.

(** ** equals *)

Definition isNull {A : Type} (p : option A) : bool :=
  match p with None => true | Some _ => false end.

(** [(!conditional_ && !other.conditional())
     || conditional_->equals( *other.conditional(), tol)] *)
Definition equals (c other : Clique) (tol : Tol) : result bool :=
  if isNull (conditional_ c) && isNull (conditional_ other) then Value true
  else
    match conditional_ c, conditional_ other with
    | Some mine, Some theirs => Value (conditional_equals mine theirs tol)
    | _, _ => Undef NullConditional
    end.

(** ** print *)

(** [conditional_->print(s, keyFormatter)] *)
Definition print (c : Clique) (s : string) (keyFormatter : KeyFormatter)
  : result string :=
  match conditional_ c with
  | Some cond => Value (conditional_print s keyFormatter cond)
  | None => Undef NullConditional
  end.

(** ** treeSize *)

Fixpoint treeSize (c : Clique) : Z :=
  fold_left (fun size child => wrap (size + treeSize child)) (children c) 1.

(** ** numCachedSeparatorMarginals *)

Fixpoint numCachedSeparatorMarginals (c : Clique) : Z :=
  match cachedSeparatorMarginal_ c with
  | None => 0
  | Some _ =>
      fold_left
        (fun subtree_count child =>
           wrap (subtree_count + numCachedSeparatorMarginals child))
        (children c) 1
  end.

(** ** deleteCachedShortcuts *)

(** The method writes this clique and, through the owned child pointers,
    its descendants: the result is the clique after the call. *)
Fixpoint deleteCachedShortcuts (c : Clique) : Clique :=
  match cachedSeparatorMarginal_ c with
  | Some _ =>
      mkClique (this c) (conditional_ c) (parent_ c)
               (map deleteCachedShortcuts (children c)) None
  | None => c
  end.

(** ** The tree as the store of the live cliques

    [separatorMarginal] goes up: it reaches its parent through the weak
    pointer [parent_] and writes the cache of every clique it computes.
    The cliques it reaches are those of the tree it is called in, found by
    their address. *)

(** The cliques of the tree under [c], [c] first. *)
Fixpoint subtree (c : Clique) : list Clique :=
  c :: flat_map subtree (children c).

(** The cliques strictly below [c]. *)
Definition descendants (c : Clique) : list Clique :=
  flat_map subtree (children c).

Definition addresses (c : Clique) : list ptr := map this (subtree c).

(** The live clique at address [a]. *)
Definition find (a : ptr) (T : Clique) : option Clique :=
  List.find (fun n => Nat.eqb (this n) a) (subtree T).

(** [parent_.lock()]: null when the weak pointer is empty or when the
    clique it pointed to is no longer alive. *)
Definition lock (T : Clique) (weak : option ptr) : option ptr :=
  match weak with
  | Some p => match find p T with Some _ => Some p | None => None end
  | None => None
  end.

(** The assignment [cachedSeparatorMarginal_ = v] in the clique at
    address [a]. *)
Fixpoint setCache (a : ptr) (v : option FactorGraph) (c : Clique) : Clique :=
  mkClique (this c) (conditional_ c) (parent_ c)
           (map (setCache a v) (children c))
           (if Nat.eqb (this c) a then v else cachedSeparatorMarginal_ c).

(** The call [a->deleteCachedShortcuts()] in the tree [c]: the clique at
    address [a] is replaced by what the method leaves of it. *)
Fixpoint call_deleteCachedShortcuts (a : ptr) (c : Clique) : Clique :=
  if Nat.eqb (this c) a then deleteCachedShortcuts c
  else mkClique (this c) (conditional_ c) (parent_ c)
                (map (call_deleteCachedShortcuts a) (children c))
                (cachedSeparatorMarginal_ c).

(** The calls [a->treeSize()] and [a->numCachedSeparatorMarginals()] in the
    tree [T]: the value and the tree after the call.  Neither body assigns
    to a member. *)
Definition call_treeSize (a : ptr) (T : Clique) : result (Z * Clique) :=
  match find a T with
  | Some c => Value (treeSize c, T)
  | None => Undef DanglingThis
  end.

Definition call_numCachedSeparatorMarginals (a : ptr) (T : Clique)
  : result (Z * Clique) :=
  match find a T with
  | Some c => Value (numCachedSeparatorMarginals c, T)
  | None => Undef DanglingThis
  end.

(** ** separatorMarginal *)

(** The state a request runs in: the tree, and how many times the solver
    (the elimination) has been run.  The counter is not a variable of the
    program; it records the calls of [jointBayesNet]. *)
Record State : Type := mkState {
  tree : Clique;
  eliminations : nat
}.

Inductive outcome (A : Type) : Type :=
| Ret (a : A) (st : State)          (* normal return *)
| Throw (e : Exn) (st : State)      (* an exception of the elimination *)
| Undefined (u : undefined_behaviour)
| OutOfFuel.
Arguments Ret {A} a st.
Arguments Throw {A} e st.
Arguments Undefined {A} u.
Arguments OutOfFuel {A}.

(** [self->separatorMarginal(R, function)], lines 157-214.  The file keeps
    the body of this method as commented-out code; it is embedded as it is
    written there.  The recursion follows the parent pointers, which a
    malformed tree can make cyclic: [fuel] bounds the depth of the
    recursion. *)
Fixpoint separatorMarginal (fuel : nat) (st : State) (self R : ptr)
  : outcome FactorGraph :=
  match fuel with
  | O => OutOfFuel
  | S fuel' =>
    match find self (tree st) with
    | None => Undefined DanglingThis
    | Some c =>
      match cachedSeparatorMarginal_ c with
      | Some cached => Ret cached st                      (* cache hit *)
      | None =>
        if Nat.eqb R self then
          (* we are root, return empty *)
          Ret [] (mkState (setCache self (Some []) (tree st))
                          (eliminations st))
        else
          match lock (tree st) (parent_ c) with
          | None => Undefined NullParent
          | Some parent =>
            match separatorMarginal fuel' st parent R with
            | Ret p_Sp st1 =>
              match find parent (tree st1) with
              | None => Undefined DanglingThis
              | Some parentClique =>
                match conditional_ parentClique with
                | None => Undefined NullConditional
                | Some p_Fp_Sp =>
                  let p_Cp := p_Sp ++ [toFactor p_Fp_Sp] in
                  match conditional_ c with
                  | None => Undefined NullConditional
                  | Some p_F_S =>
                    let indicesS := parents p_F_S in
                    match jointBayesNet p_Cp indicesS with
                    | inl e =>
                        Throw e (mkState (tree st1) (S (eliminations st1)))
                    | inr marginal =>
                        Ret marginal
                            (mkState
                               (setCache self (Some marginal) (tree st1))
                               (S (eliminations st1)))
                    end
                  end
                end
              end
            | failed => failed
            end
          end
      end
    end
  end.

(** ** marginal2 *)

(** [self->marginal2(R, function)], lines 220-230, kept in the file as
    commented-out code like [separatorMarginal]: the separator marginal with
    the factor of the clique's own conditional appended. *)
Definition marginal2 (fuel : nat) (st : State) (self R : ptr)
  : outcome FactorGraph :=
  match separatorMarginal fuel st self R with
  | Ret p_S st1 =>
      match find self (tree st1) with
      | None => Undefined DanglingThis
      | Some c =>
          match conditional_ c with
          | None => Undefined NullConditional
          | Some p_F_S => Ret (p_S ++ [toFactor p_F_S]) st1
          end
      end
  | failed => failed
  end.

(** ** Predicates of the statements *)

(** The number of cliques of the tree under [c]. *)
Definition cliqueCount (c : Clique) : Z := Z.of_nat (List.length (subtree c)).

(** The sum of [f] over a collection. *)
Definition sum_over {A : Type} (f : A -> Z) (l : list A) : Z :=
  fold_right (fun x acc => f x + acc) 0 l.

(** In memory the cliques of a tree are distinct objects, each larger than a
    byte: their number is below the modulus of [size_t]. *)
Definition fitsInMemory (c : Clique) : Prop := cliqueCount c < size_t_modulus.

(** The clique at address [a] is alive and its cache is populated. *)
Definition cached (T : Clique) (a : ptr) : bool :=
  match find a T with
  | Some c => negb (isNull (cachedSeparatorMarginal_ c))
  | None => false
  end.

(** [pathTo T R c path]: following the parent pointers from [c] reaches
    [R]; [path] lists the cliques met, [c] first, [R] excluded. *)
Inductive pathTo (T : Clique) (R : ptr) : ptr -> list ptr -> Prop :=
| path_end : forall r, find R T = Some r -> pathTo T R R []
| path_step : forall c n p path,
    c <> R -> find c T = Some n -> parent_ n = Some p ->
    pathTo T R p path -> pathTo T R c (c :: path).

(** Every clique of [path] that has a populated cache is followed by
    cliques with populated caches only. *)
Fixpoint upwardClosed (T : Clique) (path : list ptr) : Prop :=
  match path with
  | [] => True
  | c :: rest =>
      (cached T c = true -> forall x, In x rest -> cached T x = true)
      /\ upwardClosed T rest
  end.

(** Every clique of the tree has a conditional. *)
Definition operational (T : Clique) : Prop :=
  forall n, In n (subtree T) -> conditional_ n <> None.

(** No cache is populated in the tree under [c]. *)
Definition allAbsent (c : Clique) : Prop :=
  forall n, In n (subtree c) -> cachedSeparatorMarginal_ n = None.

(** Below a clique with an empty cache every cache is empty: the cliques
    with a populated cache form a part of the tree closed under going up. *)
Fixpoint closed (c : Clique) : Prop :=
  (cachedSeparatorMarginal_ c = None ->
   forall child, In child (children c) -> allAbsent child)
  /\ fold_right (fun child rest => closed child /\ rest) True (children c).

(** The tree with every cache emptied: what the tree is made of apart from
    the caches. *)
Fixpoint shape (c : Clique) : Clique :=
  mkClique (this c) (conditional_ c) (parent_ c) (map shape (children c))
           None.

(** The fields of one clique other than its cache, with the addresses of
    its children. *)
Definition fields (c : Clique)
  : ptr * option Conditional * option ptr * list ptr :=
  (this c, conditional_ c, parent_ c, map this (children c)).

(** Every child points back to the clique that owns it. *)
Definition linked (T : Clique) : Prop :=
  forall n child, In n (subtree T) -> In child (children n) ->
                  parent_ child = Some (this n).

(** A tree in memory: no two cliques at one address, and every child
    points to its parent. *)
Definition wellFormed (T : Clique) : Prop :=
  NoDup (addresses T) /\ linked T.

(** The cache of the clique is populated. *)
Definition populated (c : Clique) : bool :=
  negb (isNull (cachedSeparatorMarginal_ c)).

(** The number of cliques of the tree under [c] with a populated cache. *)
Definition populatedCount (c : Clique) : Z :=
  Z.of_nat (List.length (filter populated (subtree c))).

(** A function that rebuilds a clique from its children rebuilt, with the
    same address. *)
Definition rebuilds (f : Clique -> Clique) : Prop :=
  forall c, this (f c) = this c /\ children (f c) = map f (children c).

(** The state a request ends in, when it returns or throws. *)
Definition endsIn (o : outcome FactorGraph) (st' : State) : Prop :=
  (exists m, o = Ret m st') \/ (exists e, o = Throw e st').

(** The states reached from the tree [T0] with empty caches by requests
    relative to references of any kind and by invalidations.
    [rootOnly = true] admits only requests relative to the root of the
    tree. *)
Inductive reachable (rootOnly : bool) (T0 : Clique) : State -> Prop :=
| reach_init : reachable rootOnly T0 (mkState (shape T0) 0)
| reach_request : forall st fuel c R m st',
    reachable rootOnly T0 st ->
    (rootOnly = true -> R = this T0) ->
    (exists path, pathTo (tree st) R c path) ->
    separatorMarginal fuel st c R = Ret m st' ->
    reachable rootOnly T0 st'
| reach_throw : forall st fuel c R e st',
    reachable rootOnly T0 st ->
    (rootOnly = true -> R = this T0) ->
    (exists path, pathTo (tree st) R c path) ->
    separatorMarginal fuel st c R = Throw e st' ->
    reachable rootOnly T0 st'
| reach_delete : forall st a,
    reachable rootOnly T0 st ->
    reachable rootOnly T0
      (mkState (call_deleteCachedShortcuts a (tree st)) (eliminations st)).

End BayesTreeCliqueBase.

Arguments Clique : clear implicits.
Arguments State : clear implicits.
Arguments outcome : clear implicits.
Arguments Ret {Factor Conditional Exn A} a st.
Arguments Throw {Factor Conditional Exn A} e st.
Arguments Undefined {Factor Conditional Exn A} u.
Arguments OutOfFuel {Factor Conditional Exn A}.

(** ** The keys of a shortcut

    [separator_setminus_B] and [shortcut_indices], lines 34-63, kept in the
    file as commented-out code.  A [Key] is an unsigned integer of which
    only the order is used.  A [FastSet<Key>] is a [std::set]: its elements
    are kept in increasing order without repetition, here as a list. *)

(** [set.insert(k)]. *)
Fixpoint FastSet_insert (k : nat) (s : list nat) : list nat :=
  match s with
  | [] => [k]
  | x :: s' =>
      if Nat.ltb k x then k :: s
      else if Nat.ltb x k then x :: FastSet_insert k s'
      else s
  end.

(** [FastSet<Key>(first, last)]: every key of the range is inserted. *)
Definition FastSet_of_range (range : list nat) : list nat :=
  fold_left (fun s k => FastSet_insert k s) range [].

(** [std::set_difference(first1, last1, first2, last2, back_inserter(out))]
    on two increasing ranges. *)
Fixpoint set_difference (l1 l2 : list nat) {struct l1} : list nat :=
  let fix scan (l2 : list nat) {struct l2} : list nat :=
    match l1, l2 with
    | [], _ => []
    | _, [] => l1
    | x :: l1', y :: l2' =>
        if Nat.ltb x y then x :: set_difference l1' l2
        else if Nat.ltb y x then scan l2'
        else set_difference l1' l2'
    end in
  scan l2.

(** [std::set_intersection(first1, last1, first2, last2,
    back_inserter(out))] on two increasing ranges. *)
Fixpoint set_intersection (l1 l2 : list nat) {struct l1} : list nat :=
  let fix scan (l2 : list nat) {struct l2} : list nat :=
    match l1, l2 with
    | [], _ => []
    | _, [] => []
    | x :: l1', y :: l2' =>
        if Nat.ltb x y then set_intersection l1' l2
        else if Nat.ltb y x then scan l2'
        else x :: set_intersection l1' l2'
    end in
  scan l2.

Section ShortcutKeys.

Context {Factor Conditional : Type}.

(** [conditional->beginParents() .. endParents()]. *)
Variable parents : Conditional -> list nat.
(** [conditional->begin() .. end()]: the frontal keys and the parents. *)
Variable keys : Conditional -> list nat.
(** [p_Cp_B.keys()]: the keys of a factor graph, as a [FastSet<Key>]. *)
Variable graphKeys : list Factor -> list nat.

(** [vector.empty()]. *)
Definition isNil {A : Type} (l : list A) : bool :=
  match l with [] => true | _ :: _ => false end.

(** [this->separator_setminus_B(B)]. *)
Definition separator_setminus_B (c B : Clique Factor Conditional)
  : result (list nat) :=
  match conditional_ c with
  | None => Undef NullConditional
  | Some p_F_S =>
      let p_F_S_parents := FastSet_of_range (parents p_F_S) in
      match conditional_ B with
      | None => Undef NullConditional
      | Some condB =>
          let indicesB := FastSet_of_range (keys condB) in
          Value (set_difference p_F_S_parents indicesB)
      end
  end.

(** [this->shortcut_indices(B, p_Cp_B)]. *)
Definition shortcut_indices (c B : Clique Factor Conditional)
  (p_Cp_B : list Factor) : result (list nat) :=
  let allKeys := graphKeys p_Cp_B in
  match conditional_ B with
  | None => Undef NullConditional
  | Some condB =>
      let indicesB := FastSet_of_range (keys condB) in
      match separator_setminus_B c B with
      | Undef u => Undef u
      | Value S_setminus_B =>
          (* keep = S\B intersect allKeys, then += B intersect allKeys *)
          Value (set_intersection S_setminus_B allKeys
                 ++ set_intersection indicesB allKeys)
      end
  end.

(** ** shortcut *)

Context {Exn : Type}.

(** [conditional->toFactor()]. *)
Variable toFactor : Conditional -> Factor.
(** [FactorGraphType(bayesNet)]: the factor graph made of a Bayes net. *)
Variable fromBayesNet : list Conditional -> list Factor.
(** Lines 122-143 of [shortcut]: the keys are reduced,
    [GenericSequentialSolver(p_Cp_B).conditionalBayesNet(keep, nrFrontals,
    function)] is called and the reduction is undone; one function that
    either throws or gives the Bayes net, as in [separatorMarginal]. *)
Variable conditionalBayesNet :
  list Factor -> list nat -> nat -> Exn + list Conditional.

(** [self->shortcut(B, function)], lines 101-151, kept in the file as
    commented-out code.  [assertInvariants()], which precedes the return, is
    a check that writes nothing and is taken to pass.  The state is that of
    [separatorMarginal]: the tree and the count of the solver's runs. *)
Fixpoint shortcut (fuel : nat) (st : State Factor Conditional)
  (self B : ptr) : outcome Factor Conditional Exn (list Conditional) :=
  match fuel with
  | O => OutOfFuel
  | S fuel' =>
    match find self (tree st), find B (tree st) with
    | Some c, Some b =>
      match separator_setminus_B c b with
      | Undef u => Undefined u
      | Value S_setminus_B =>
        if negb (Nat.eqb B self) && negb (isNil S_setminus_B) then
          match lock (tree st) (parent_ c) with
          | None => Undefined NullParent
          | Some parent =>
            match shortcut fuel' st parent B with
            | Ret p_Sp_B st1 =>
              match find parent (tree st1) with
              | None => Undefined DanglingThis
              | Some parentClique =>
                match conditional_ parentClique with
                | None => Undefined NullConditional
                | Some p_Fp_Sp =>
                  let p_Cp_B := fromBayesNet p_Sp_B ++ [toFactor p_Fp_Sp] in
                  match shortcut_indices c b p_Cp_B with
                  | Undef u => Undefined u
                  | Value keep =>
                    let nrFrontals := List.length S_setminus_B in
                    let st2 := mkState (tree st1) (S (eliminations st1)) in
                    match conditionalBayesNet p_Cp_B keep nrFrontals with
                    | inl e => Throw e st2
                    | inr result => Ret result st2
                    end
                  end
                end
              end
            | failed => failed
            end
          end
        else Ret [] st
      end
    | _, _ => Undefined DanglingThis
    end
  end.

End ShortcutKeys.

(** ** TransformCalProjectionFactor

    The factor of [TransformCalProjectionFactor.h]: its constructors and
    [evaluateError].  The geometry (poses, points, the camera, matrices and
    their floating-point arithmetic) is that of other files: it is taken as
    the variables of the section, and [evaluateError] is embedded for
    its control flow, the Jacobians it writes and the exception it catches. *)

Section TransformCalProjectionFactor.

Context {Pose3 Point3 Point2 Calibration Matrix Vector Scalar : Type}.
Context {SharedNoiseModel CheiralityException : Type}.

(** [pose.compose(transform, H0, H02)]: the composed pose and the two
    Jacobians; [pose.compose(transform)] is the same call without them. *)
Variable compose : Pose3 -> Pose3 -> Pose3 * Matrix * Matrix.
(** [PinholeCamera(pose, K).project(point, H1, H3, H4)]: the projection with
    its Jacobians in the pose, the point and the calibration, or a
    [CheiralityException] when the point is behind the camera. *)
Variable project :
  Pose3 -> Calibration -> Point3 ->
  CheiralityException + (Point2 * Matrix * Matrix * Matrix).
(** [Point2::operator-], [Point2::vector()], [Matrix::operator*]. *)
Variable minus : Point2 -> Point2 -> Point2.
Variable vector : Point2 -> Vector.
Variable times : Matrix -> Matrix -> Matrix.
(** [zeros(m, n)], [ones(n)], a vector times a [double], [2.0], [K.fx()],
    [CALIBRATION::Dim()]. *)
Variable zeros : nat -> nat -> Matrix.
Variable ones : nat -> Vector.
Variable scaled : Vector -> Scalar -> Vector.
Variable two : Scalar.
Variable fx : Calibration -> Scalar.
Variable calibrationDim : nat.
(** [e.what()] and [DefaultKeyFormatter]. *)
Variable what : CheiralityException -> string.
Variable DefaultKeyFormatter : nat -> string.

(** The factor: the noise model and the four keys of the base class
    [NoiseModelFactor4], the measurement and the two flags. *)
Record ProjectionFactor : Type := mkProjectionFactor {
  noiseModel : SharedNoiseModel;
  key1 : nat;      (* poseKey *)
  key2 : nat;      (* transformKey *)
  key3 : nat;      (* pointKey *)
  key4 : nat;      (* calibKey *)
  measured_ : Point2;
  throwCheirality_ : bool;
  verboseCheirality_ : bool
}.

(** The constructor with six arguments. *)
Definition construct (measured : Point2) (model : SharedNoiseModel)
  (poseKey transformKey pointKey calibKey : nat) : ProjectionFactor :=
  mkProjectionFactor model poseKey transformKey pointKey calibKey measured
                     false false.

(** The constructor with the exception-handling flags. *)
Definition constructWithFlags (measured : Point2) (model : SharedNoiseModel)
  (poseKey transformKey pointKey calibKey : nat)
  (throwCheirality verboseCheirality : bool) : ProjectionFactor :=
  mkProjectionFactor model poseKey transformKey pointKey calibKey measured
                     throwCheirality verboseCheirality.

(** How a call of [evaluateError] ends: the matrices are what the call
    leaves in the optional Jacobians that were passed ([None] for one that
    was not), the text is what went to the output. *)
Inductive evaluation : Type :=
| Returned (error : Vector) (H1 H2 H3 H4 : option Matrix) (output : string)
| Rethrown (e : CheiralityException) (H1 H2 H3 H4 : option Matrix)
           (output : string)
| EmptyOptional.   (* [*H1] or [*H2] on an optional that holds nothing *)

Definition endl : string := String (Ascii.ascii_of_nat 10) EmptyString.

(** [if (H) *H = m;] *)
Definition written (H : bool) (m : Matrix) : option Matrix :=
  if H then Some m else None.

(** [evaluateError(pose, transform, point, K, H1, H2, H3, H4)]; [H1] to
    [H4] tell which optional Jacobians are passed. *)
Definition evaluateError (f : ProjectionFactor) (pose transform : Pose3)
  (point : Point3) (K : Calibration) (H1 H2 H3 H4 : bool) : evaluation :=
  let caught (e : CheiralityException) : evaluation :=
    let output :=
      if verboseCheirality_ f then
        (what e ++ ": Landmark " ++ DefaultKeyFormatter (key2 f)
         ++ " moved behind camera " ++ DefaultKeyFormatter (key1 f)
         ++ endl)%string
      else EmptyString in
    if throwCheirality_ f then
      Rethrown e (written H1 (zeros 2 6)) (written H2 (zeros 2 6))
               (written H3 (zeros 2 3)) (written H4 (zeros 2 calibrationDim))
               output
    else
      Returned (scaled (scaled (ones 2) two) (fx K))
               (written H1 (zeros 2 6)) (written H2 (zeros 2 6))
               (written H3 (zeros 2 3)) (written H4 (zeros 2 calibrationDim))
               output in
  if H1 || H2 || H3 || H4 then
    let '(cameraPose, H0, H02) := compose pose transform in
    match project cameraPose K point with
    | inr (projected, Dpose, Dpoint, Dcal) =>
        let reprojectionError := minus projected (measured_ f) in
        (* *H2 = *H1 * H02; *H1 = *H1 * H0; *)
        if H1 && H2 then
          Returned (vector reprojectionError)
                   (Some (times Dpose H0)) (Some (times Dpose H02))
                   (written H3 Dpoint) (written H4 Dcal) EmptyString
        else EmptyOptional
    | inl e => caught e
    end
  else
    let '(cameraPose, _, _) := compose pose transform in
    match project cameraPose K point with
    | inr (projected, _, _, _) =>
        let reprojectionError := minus projected (measured_ f) in
        Returned (vector reprojectionError) None None None None EmptyString
    | inl e => caught e
    end.

End TransformCalProjectionFactor.

Arguments ProjectionFactor : clear implicits.
Arguments evaluation : clear implicits.

(** ** A concrete tree

    Keys are numbers, a factor is the list of the keys it involves, a
    conditional is its frontal keys and its separator keys, and the solver
    returns one factor on the keys it is asked to keep.

<<
        root(0) --- A(1) --- B(2) --- C(3) --- D(4)
           \
            E(5)
>>
*)
Module Example.
Local Open Scope nat_scope.

Definition Key : Type := nat.
Definition Factor : Type := list Key.
Definition Conditional : Type := (list Key * list Key)%type.
Definition Tol : Type := nat.
Definition Exn : Type := string.

Definition toFactor (c : Conditional) : Factor := fst c ++ snd c.
Definition parents (c : Conditional) : list Key := snd c.
Definition conditional_equals (a b : Conditional) (tol : Tol) : bool :=
  if list_eq_dec Nat.eq_dec (fst a) (fst b) then
    if list_eq_dec Nat.eq_dec (snd a) (snd b) then true else false
  else false.
Definition conditional_print (s : string) (kf : Key -> string)
  (c : Conditional) : string :=
  (s ++ String.concat " " (map kf (fst c ++ snd c)))%string.
Definition jointBayesNet (p_Cp : list Factor) (indicesS : list Key)
  : Exn + list Factor := inr [indicesS].

Definition clique : Type := Clique Factor Conditional.

Definition cliqueD : clique := mkClique 4 (Some ([4], [3])) (Some 3) [] None.
Definition cliqueC : clique :=
  mkClique 3 (Some ([3], [2])) (Some 2) [cliqueD] None.
Definition cliqueB : clique :=
  mkClique 2 (Some ([2], [1])) (Some 1) [cliqueC] None.
Definition cliqueA : clique :=
  mkClique 1 (Some ([1], [0])) (Some 0) [cliqueB] None.
Definition cliqueE : clique := mkClique 5 (Some ([5], [0])) (Some 0) [] None.
Definition root : clique :=
  mkClique 0 (Some ([0], [])) None [cliqueA; cliqueE] None.

(** A placeholder clique: no conditional. *)
Definition placeholder : clique := mkClique 7 None None [] None.

Definition request (fuel : nat) (st : State Factor Conditional) (c R : ptr)
  : outcome Factor Conditional Exn (list Factor) :=
  separatorMarginal toFactor parents jointBayesNet fuel st c R.

(** The state after a request, whatever its outcome. *)
Definition after (o : outcome Factor Conditional Exn (list Factor))
  (st : State Factor Conditional) : State Factor Conditional :=
  match o with
  | Ret _ st' => st'
  | Throw _ st' => st'
  | _ => st
  end.

Definition fresh : State Factor Conditional := mkState root 0.

(** D relative to the root, from the fresh tree. *)
Definition afterDroot : State Factor Conditional :=
  after (request 10 fresh 4 0) fresh.

(** B relative to A, from the fresh tree. *)
Definition afterBA : State Factor Conditional :=
  after (request 10 fresh 2 1) fresh.

(** C relative to B, from the fresh tree, and then D relative to the root. *)
Definition afterCB : State Factor Conditional :=
  after (request 10 fresh 3 2) fresh.
Definition afterCBthenDroot : State Factor Conditional :=
  after (request 10 afterCB 4 0) afterCB.

(** The clique A in that state: its cache and the caches below it are
    populated. *)
Definition populatedA : clique :=
  match find 1 (tree afterDroot) with
  | Some c => c
  | None => placeholder
  end.

(** The root with a populated cache, alone. *)
Definition populatedRoot : State Factor Conditional :=
  mkState (setCache 0 (Some [[9]]) root) 0.

End Example.

(** ** More on the concrete tree: a failing elimination and shortcuts *)
Module Example2.
Import Example.
Local Open Scope nat_scope.



Definition joint (fuel : nat) (st : State Factor Conditional) (c R : ptr)
  : outcome Factor Conditional Exn (list Factor) :=
  marginal2 toFactor parents jointBayesNet fuel st c R.

(** The keys of a conditional, of a factor graph, and a solver that splits
    the keys it is given into frontal keys and the rest. *)
Definition keys (c : Conditional) : list nat := fst c ++ snd c.
Definition graphKeys (fg : list Factor) : list nat :=
  FastSet_of_range (List.concat fg).
Definition fromBayesNet (net : list Conditional) : list Factor :=
  map toFactor net.
Definition conditionalBayesNet (fg : list Factor) (keep : list nat)
  (nrFrontals : nat) : Exn + list Conditional :=
  inr [(firstn nrFrontals keep, skipn nrFrontals keep)].

Definition short (fuel : nat) (st : State Factor Conditional) (c B : ptr)
  : outcome Factor Conditional Exn (list Conditional) :=
  shortcut parents keys graphKeys toFactor fromBayesNet conditionalBayesNet
           fuel st c B.

End Example2.

(** ** A concrete camera

    Poses, points and matrices are numbers; a point at or behind the camera
    pose cannot be projected. *)
Module Camera.
Local Open Scope nat_scope.

Definition compose (pose transform : nat) : nat * nat * nat :=
  (pose + transform, 1, 2).
Definition project (cameraPose K point : nat)
  : string + (nat * nat * nat * nat) :=
  if Nat.leb point cameraPose then inl "CheiralityException"%string
  else inr (point - cameraPose, 3, 4, 5).
Definition zeros (m n : nat) : nat := 0.
Definition ones (n : nat) : nat := 1.
Definition what (e : string) : string := e.
Definition DefaultKeyFormatter (k : nat) : string :=
  String (Ascii.ascii_of_nat (48 + k)) EmptyString.

Definition evaluate (f : ProjectionFactor nat unit)
  (pose transform point K : nat) (H1 H2 H3 H4 : bool)
  : evaluation nat nat string :=
  evaluateError compose project Nat.sub (fun p => p) Nat.mul zeros ones
                Nat.mul 2 (fun K => K) 5 what DefaultKeyFormatter
                f pose transform point K H1 H2 H3 H4.

Definition quiet : ProjectionFactor nat unit := construct 7 tt 1 2 3 4.
Definition strict : ProjectionFactor nat unit :=
  constructWithFlags 7 tt 1 2 3 4 true true.

End Camera.

(** * Properties *)

Section Theory.

Context {Key Factor Conditional Tol Exn : Type}.
Variable toFactor : Conditional -> Factor.
Variable parents : Conditional -> list Key.
Variable conditional_equals : Conditional -> Conditional -> Tol -> bool.
Variable conditional_print :
  string -> (Key -> string) -> Conditional -> string.
Variable jointBayesNet : list Factor -> list Key -> Exn + list Factor.

Local Abbreviation clique := (Clique Factor Conditional).
Local Abbreviation state := (State Factor Conditional).
Local Abbreviation request := (separatorMarginal toFactor parents jointBayesNet).

(** ** Induction on a clique and the cliques below it *)

Section CliqueInduction.
Variable P : clique -> Prop.
Hypothesis node : forall a cond p ch cache,
    Forall P ch -> P (mkClique a cond p ch cache).

Fixpoint Clique_nested_ind (c : clique) : P c :=
  match c with
  | mkClique a cond p ch cache =>
      node a cond p ch cache
        ((fix below (l : list clique) : Forall P l :=
            match l with
            | [] => Forall_nil P
            | x :: l' => Forall_cons x (Clique_nested_ind x) (below l')
            end) ch)
  end.
End CliqueInduction.

(** ** Arithmetic of [size_t] *)

Lemma wrap_small (z : Z) : 0 <= z < size_t_modulus -> wrap z = z.
Proof. intros H. unfold wrap. now apply Z.mod_small. Qed.

Lemma sum_over_cons {A : Type} (f : A -> Z) (x : A) (l : list A) :
  sum_over f (x :: l) = f x + sum_over f l.
Proof. reflexivity. Qed.

Lemma sum_over_nonneg {A : Type} (f : A -> Z) (l : list A) :
  (forall x, In x l -> 0 <= f x) -> 0 <= sum_over f l.
Proof.
  induction l as [|x l IH]; intros H; [simpl; lia|].
  rewrite sum_over_cons.
  assert (0 <= f x) by (apply H; now left).
  assert (0 <= sum_over f l) by (apply IH; intros; apply H; now right).
  lia.
Qed.

Lemma sum_over_le {A : Type} (f g : A -> Z) (l : list A) :
  (forall x, In x l -> f x <= g x) -> sum_over f l <= sum_over g l.
Proof.
  induction l as [|x l IH]; intros H; [simpl; lia|].
  rewrite !sum_over_cons.
  assert (f x <= g x) by (apply H; now left).
  assert (sum_over f l <= sum_over g l) by (apply IH; intros; apply H; now right).
  lia.
Qed.

Lemma sum_over_ext {A : Type} (f g : A -> Z) (l : list A) :
  (forall x, In x l -> f x = g x) -> sum_over f l = sum_over g l.
Proof.
  induction l as [|x l IH]; intros H; [reflexivity|].
  rewrite !sum_over_cons.
  rewrite (H x) by now left. rewrite IH; [reflexivity|].
  intros; apply H; now right.
Qed.

(** The loop [BOOST_FOREACH(child, children) size += f(child)] adds up the
    values as long as the total fits in a [size_t]. *)
Lemma foreach_add {A : Type} (f : A -> Z) (l : list A) (acc : Z) :
  (forall x, In x l -> 0 <= f x) ->
  0 <= acc -> acc + sum_over f l < size_t_modulus ->
  fold_left (fun size x => wrap (size + f x)) l acc = acc + sum_over f l.
Proof.
  revert acc. induction l as [|x l IH]; intros acc Hf Hacc Hlt;
    [simpl; lia|].
  rewrite sum_over_cons in *. cbn [fold_left].
  assert (0 <= f x) by (apply Hf; now left).
  assert (0 <= sum_over f l)
    by (apply sum_over_nonneg; intros; apply Hf; now right).
  rewrite wrap_small by lia.
  rewrite IH; try lia. intros; apply Hf; now right.
Qed.

Lemma cliqueCount_unfold (c : clique) :
  cliqueCount c = 1 + sum_over cliqueCount (children c).
Proof.
  unfold cliqueCount. destruct c as [a cond p ch cache].
  cbn [subtree children List.length]. rewrite Nat2Z.inj_succ.
  assert (H : Z.of_nat (List.length (flat_map subtree ch))
              = sum_over (fun x : clique => Z.of_nat (List.length (subtree x))) ch).
  { induction ch as [|x ch IH]; [reflexivity|].
    cbn [flat_map sum_over fold_right]. rewrite List.length_app, Nat2Z.inj_add.
    fold (sum_over (fun x : clique => Z.of_nat (List.length (subtree x))) ch).
    lia. }
  lia.
Qed.

Lemma cliqueCount_pos (c : clique) : 1 <= cliqueCount c.
Proof. unfold cliqueCount. destruct c; simpl. lia. Qed.

Lemma cliqueCount_child (c child : clique) :
  In child (children c) -> cliqueCount child < cliqueCount c.
Proof.
  rewrite (cliqueCount_unfold c). generalize (children c) as l.
  induction l as [|x l IH]; [simpl; tauto|].
  rewrite sum_over_cons. cbn [In].
  assert (0 <= sum_over cliqueCount l)
    by (apply sum_over_nonneg; intros y _; pose proof (cliqueCount_pos y); lia).
  intros [->|Hin]; [lia|].
  specialize (IH Hin). pose proof (cliqueCount_pos x). lia.
Qed.

Lemma treeSize_unfold (c : clique) :
  treeSize c =
  fold_left (fun size child => wrap (size + treeSize child)) (children c) 1.
Proof. destruct c; reflexivity. Qed.

Lemma numCachedSeparatorMarginals_unfold (c : clique) :
  numCachedSeparatorMarginals c =
  match cachedSeparatorMarginal_ c with
  | None => 0
  | Some _ =>
      fold_left
        (fun n child => wrap (n + numCachedSeparatorMarginals child))
        (children c) 1
  end.
Proof. destruct c; reflexivity. Qed.

(** In a tree that fits in memory [treeSize] is the number of cliques. *)
Lemma treeSize_cliqueCount (c : clique) :
  fitsInMemory c -> treeSize c = cliqueCount c.
Proof.
  unfold fitsInMemory.
  induction c as [a cond p ch cache IH] using Clique_nested_ind.
  intros Hfit. rewrite treeSize_unfold, cliqueCount_unfold. simpl children.
  rewrite cliqueCount_unfold in Hfit. simpl children in Hfit.
  assert (Heq : forall x, In x ch -> treeSize x = cliqueCount x).
  { intros x Hx. rewrite Forall_forall in IH. apply IH; [exact Hx|].
    pose proof (cliqueCount_child (mkClique a cond p ch cache) x Hx) as H.
    rewrite (cliqueCount_unfold (mkClique _ _ _ _ _)) in H.
    simpl children in H. lia. }
  rewrite foreach_add.
  - f_equal. now apply sum_over_ext.
  - intros x Hx. rewrite (Heq x Hx). pose proof (cliqueCount_pos x). lia.
  - lia.
  - rewrite (sum_over_ext _ _ _ Heq). exact Hfit.
Qed.

Lemma numCachedSeparatorMarginals_bounds (c : clique) :
  fitsInMemory c -> 0 <= numCachedSeparatorMarginals c <= cliqueCount c.
Proof.
  unfold fitsInMemory.
  induction c as [a cond p ch cache IH] using Clique_nested_ind.
  intros Hfit. rewrite numCachedSeparatorMarginals_unfold. simpl.
  pose proof (cliqueCount_pos (mkClique a cond p ch cache)) as Hpos.
  destruct cache as [m|]; [|lia].
  assert (Hb : forall x, In x ch ->
              0 <= numCachedSeparatorMarginals x <= cliqueCount x).
  { intros x Hx. rewrite Forall_forall in IH. apply IH; [exact Hx|].
    pose proof (cliqueCount_child (mkClique a cond p ch (Some m)) x Hx). lia. }
  rewrite cliqueCount_unfold in Hfit |- *. simpl children in *.
  assert (sum_over numCachedSeparatorMarginals ch <= sum_over cliqueCount ch)
    by (apply sum_over_le; intros; now apply Hb).
  assert (0 <= sum_over numCachedSeparatorMarginals ch)
    by (apply sum_over_nonneg; intros; now apply Hb).
  rewrite foreach_add; try lia. intros; now apply Hb.
Qed.

(** ** The cliques of a tree and their addresses *)

Lemma subtree_unfold (c : clique) :
  subtree c = c :: flat_map subtree (children c).
Proof. destruct c; reflexivity. Qed.

Lemma subtree_self (c : clique) : In c (subtree c).
Proof. rewrite subtree_unfold. now left. Qed.

Lemma subtree_child (c child n : clique) :
  In child (children c) -> In n (subtree child) -> In n (subtree c).
Proof.
  intros Hc Hn. rewrite subtree_unfold. right.
  apply in_flat_map. now exists child.
Qed.

Lemma subtree_inv (c n : clique) :
  In n (subtree c) ->
  n = c \/ exists child, In child (children c) /\ In n (subtree child).
Proof.
  rewrite subtree_unfold. intros [H|H]; [now left|right].
  now apply in_flat_map in H.
Qed.

Lemma subtree_trans (c m n : clique) :
  In m (subtree c) -> In n (subtree m) -> In n (subtree c).
Proof.
  induction c as [a cond p ch cache IH] using Clique_nested_ind.
  intros Hm Hn. apply subtree_inv in Hm as [->|(child & Hc & Hm)]; [exact Hn|].
  apply subtree_child with child; [exact Hc|].
  rewrite Forall_forall in IH. now apply (IH child Hc).
Qed.

Lemma rebuilds_subtree (f : clique -> clique) (c : clique) :
  rebuilds f -> subtree (f c) = map f (subtree c).
Proof.
  intros Hf. induction c as [a cond p ch cache IH] using Clique_nested_ind.
  rewrite (subtree_unfold (f _)), (subtree_unfold (mkClique _ _ _ _ _)).
  destruct (Hf (mkClique a cond p ch cache)) as [_ ->].
  cbn [children map]. f_equal.
  induction IH as [|x l Hx _ IHl]; [reflexivity|].
  cbn [map flat_map]. rewrite map_app, Hx, IHl. reflexivity.
Qed.

Lemma rebuilds_addresses (f : clique -> clique) (c : clique) :
  rebuilds f -> addresses (f c) = addresses c.
Proof.
  intros Hf. unfold addresses. rewrite (rebuilds_subtree f c Hf), map_map.
  apply map_ext. intros x. apply Hf.
Qed.

Lemma rebuilds_find (f : clique -> clique) (a : ptr) (T : clique) :
  rebuilds f -> find a (f T) = option_map f (find a T).
Proof.
  intros Hf. unfold find. rewrite (rebuilds_subtree f T Hf).
  induction (subtree T) as [|x l IH]; [reflexivity|].
  cbn [List.find map]. destruct (Hf x) as [-> _].
  destruct (Nat.eqb (this x) a); [reflexivity|exact IH].
Qed.

Lemma setCache_rebuilds (a : ptr) (v : option (list Factor)) :
  rebuilds (setCache a v : clique -> clique).
Proof. intros [b cond p ch cache]. split; reflexivity. Qed.

Lemma shape_rebuilds : rebuilds (shape : clique -> clique).
Proof. intros [b cond p ch cache]. split; reflexivity. Qed.

Lemma find_setCache (a b : ptr) (v : option (list Factor)) (T : clique) :
  find a (setCache b v T) = option_map (setCache b v) (find a T).
Proof. apply rebuilds_find, setCache_rebuilds. Qed.

Lemma find_shape (a : ptr) (T : clique) :
  find a (shape T) = option_map shape (find a T).
Proof. apply rebuilds_find, shape_rebuilds. Qed.

Lemma find_Some (a : ptr) (T n : clique) :
  find a T = Some n -> this n = a /\ In n (subtree T).
Proof.
  unfold find. intros H. apply find_some in H as [Hin Heq].
  apply Nat.eqb_eq in Heq. now split.
Qed.

Lemma find_None (a : ptr) (T : clique) :
  find a T = None -> ~ In a (addresses T).
Proof.
  unfold find, addresses. intros H Hin.
  apply in_map_iff in Hin as (n & Hn & Hin).
  apply (find_none _ _ H) in Hin. apply Nat.eqb_neq in Hin. contradiction.
Qed.

Lemma find_alive (a : ptr) (T : clique) :
  In a (addresses T) -> exists n, find a T = Some n.
Proof.
  intros Hin. destruct (find a T) as [n|] eqn:E; [now exists n|].
  now apply find_None in E.
Qed.

Lemma setCache_cache (a : ptr) (v : option (list Factor)) (n : clique) :
  cachedSeparatorMarginal_ (setCache a v n)
  = if Nat.eqb (this n) a then v else cachedSeparatorMarginal_ n.
Proof. destruct n; reflexivity. Qed.

Lemma setCache_this a (v : option (list Factor)) (n : clique) :
  this (setCache a v n) = this n.
Proof. destruct n; reflexivity. Qed.

Lemma setCache_conditional a (v : option (list Factor)) (n : clique) :
  conditional_ (setCache a v n) = conditional_ n.
Proof. destruct n; reflexivity. Qed.

Lemma setCache_parent a (v : option (list Factor)) (n : clique) :
  parent_ (setCache a v n) = parent_ n.
Proof. destruct n; reflexivity. Qed.

(** ** The shape of the tree is what no operation changes *)

Lemma shape_setCache (a : ptr) (v : option (list Factor)) (c : clique) :
  shape (setCache a v c) = shape c.
Proof.
  induction c as [b cond p ch cache IH] using Clique_nested_ind.
  cbn [setCache shape this conditional_ parent_ children]. f_equal.
  rewrite map_map. induction IH as [|x l Hx _ IHl]; [reflexivity|].
  cbn [map]. now rewrite Hx, IHl.
Qed.

Lemma deleteCachedShortcuts_unfold (c : clique) :
  deleteCachedShortcuts c =
  match cachedSeparatorMarginal_ c with
  | Some _ =>
      mkClique (this c) (conditional_ c) (parent_ c)
               (map deleteCachedShortcuts (children c)) None
  | None => c
  end.
Proof. destruct c; reflexivity. Qed.

Lemma shape_deleteCachedShortcuts (c : clique) :
  shape (deleteCachedShortcuts c) = shape c.
Proof.
  induction c as [b cond p ch cache IH] using Clique_nested_ind.
  rewrite deleteCachedShortcuts_unfold.
  cbn [this conditional_ parent_ children cachedSeparatorMarginal_].
  destruct cache as [m|]; [|reflexivity].
  cbn [shape this conditional_ parent_ children]. f_equal.
  rewrite map_map. induction IH as [|x l Hx _ IHl]; [reflexivity|].
  cbn [map]. now rewrite Hx, IHl.
Qed.

Lemma call_deleteCachedShortcuts_unfold (a : ptr) (c : clique) :
  call_deleteCachedShortcuts a c =
  if Nat.eqb (this c) a then deleteCachedShortcuts c
  else mkClique (this c) (conditional_ c) (parent_ c)
                (map (call_deleteCachedShortcuts a) (children c))
                (cachedSeparatorMarginal_ c).
Proof. destruct c; reflexivity. Qed.

Lemma shape_call_deleteCachedShortcuts (a : ptr) (c : clique) :
  shape (call_deleteCachedShortcuts a c) = shape c.
Proof.
  induction c as [b cond p ch cache IH] using Clique_nested_ind.
  rewrite call_deleteCachedShortcuts_unfold.
  cbn [this conditional_ parent_ children cachedSeparatorMarginal_].
  destruct (Nat.eqb b a); [apply shape_deleteCachedShortcuts|].
  cbn [shape this conditional_ parent_ children]. f_equal.
  rewrite map_map. induction IH as [|x l Hx _ IHl]; [reflexivity|].
  cbn [map]. now rewrite Hx, IHl.
Qed.

Lemma shape_fields (n n' : clique) :
  shape n = shape n' -> fields n = fields n'.
Proof.
  destruct n as [a cond p ch cache], n' as [a' cond' p' ch' cache'].
  cbn [shape this conditional_ parent_ children]. intros H.
  injection H as -> -> -> Hch. unfold fields.
  cbn [this conditional_ parent_ children]. f_equal.
  revert ch' Hch. induction ch as [|x ch IH]; intros [|y ch'] H;
    try discriminate; [reflexivity|].
  cbn [map] in *. injection H as Hx Hl. f_equal; [|now apply IH].
  destruct x, y. cbn [shape this] in *. congruence.
Qed.

Lemma shape_find (a : ptr) (T T' n : clique) :
  shape T = shape T' -> find a T = Some n ->
  exists n', find a T' = Some n' /\ shape n = shape n'.
Proof.
  intros Hs Hf. pose proof (find_shape a T) as H1.
  pose proof (find_shape a T') as H2. rewrite Hs, H2, Hf in H1.
  destruct (find a T') as [n'|]; [|discriminate].
  exists n'. split; [reflexivity|]. cbn in H1. congruence.
Qed.

Lemma shape_addresses (T T' : clique) :
  shape T = shape T' -> addresses T = addresses T'.
Proof.
  intros H. rewrite <- (rebuilds_addresses shape T shape_rebuilds),
    <- (rebuilds_addresses shape T' shape_rebuilds). now rewrite H.
Qed.

(** ** Populated caches *)

Lemma cached_true (T : clique) (a : ptr) :
  cached T a = true <->
  exists n m, find a T = Some n /\ cachedSeparatorMarginal_ n = Some m.
Proof.
  unfold cached. split.
  - destruct (find a T) as [n|]; [|discriminate].
    destruct (cachedSeparatorMarginal_ n) as [m|] eqn:E; [|discriminate].
    intros _. now exists n, m.
  - intros (n & m & -> & ->). reflexivity.
Qed.

Lemma cached_setCache_keeps (T : clique) (a x : ptr) (m : list Factor) :
  cached T x = true -> cached (setCache a (Some m) T) x = true.
Proof.
  rewrite !cached_true. intros (n & v & Hf & Hc).
  exists (setCache a (Some m) n). rewrite find_setCache, Hf, setCache_cache, Hc.
  cbn [option_map]. destruct (Nat.eqb (this n) a); eauto.
Qed.

Lemma find_setCache_same (T n : clique) (a : ptr) (m : list Factor) :
  find a T = Some n ->
  exists n', find a (setCache a (Some m) T) = Some n'
             /\ cachedSeparatorMarginal_ n' = Some m.
Proof.
  intros Hf. rewrite find_setCache, Hf. cbn [option_map].
  eexists. split; [reflexivity|]. rewrite setCache_cache.
  apply find_Some in Hf as [-> _]. now rewrite Nat.eqb_refl.
Qed.

(** ** separatorMarginal: what every request keeps *)

Ltac step_request :=
  match goal with
  | |- context [match ?x with _ => _ end] => destruct x eqn:?
  | |- context [if ?x then _ else _] => destruct x eqn:?
  end.

Ltac not_ended :=
  match goal with
  | H : endsIn _ _ |- _ =>
      solve [destruct H as [[? H]|[? H]]; discriminate H]
  end.

Ltac ended :=
  match goal with
  | H : endsIn _ _ |- _ =>
      destruct H as [[? H]|[? H]]; try discriminate H;
      injection H as <-; subst
  end.

(** A request changes caches only, never empties one, and never undoes an
    elimination. *)
Lemma request_frame (fuel : nat) (st st' : state) (c R : ptr) :
  endsIn (request fuel st c R) st' ->
  shape (tree st') = shape (tree st)
  /\ (forall x, cached (tree st) x = true -> cached (tree st') x = true)
  /\ (eliminations st <= eliminations st')%nat.
Proof.
  revert st st' c. induction fuel as [|fuel IH]; intros st st' c H.
  - cbn in H. not_ended.
  - cbn [separatorMarginal] in H. revert H.
    destruct (find c (tree st)) as [n|] eqn:Hfind; [|intros; not_ended].
    destruct (cachedSeparatorMarginal_ n) as [v|] eqn:Hcache.
    { intros H. ended. auto. }
    destruct (Nat.eqb R c) eqn:HR.
    { intros H. ended. cbn [tree eliminations].
      rewrite shape_setCache. split; [reflexivity|]. split; [|lia].
      intros x. apply cached_setCache_keeps. }
    destruct (lock (tree st) (parent_ n)) as [p|]; [|intros; not_ended].
    destruct (request fuel st p R) as [m1 st1|e st1| |] eqn:Hrec;
      try (intros; not_ended).
    + assert (Hend : endsIn (request fuel st p R) st1)
        by (left; now exists m1).
      apply IH in Hend as (Hs & Hm & He).
      destruct (find p (tree st1)) as [n1|]; [|intros; not_ended].
      destruct (conditional_ n1); [|intros; not_ended].
      destruct (conditional_ n); [|intros; not_ended].
      destruct (jointBayesNet _ _); intros H; ended; cbn [tree eliminations].
      * split; [exact Hs|]. split; [exact Hm|lia].
      * rewrite shape_setCache. split; [exact Hs|]. split; [|lia].
        intros x Hx. apply cached_setCache_keeps, Hm, Hx.
    + intros H. ended.
      apply (IH st st' p). right. now exists e.
Qed.

Lemma request_shape (fuel : nat) (st st' : state) (c R : ptr) m :
  request fuel st c R = Ret m st' -> shape (tree st') = shape (tree st).
Proof. intros H. apply (request_frame fuel st st' c R). left. now exists m. Qed.

(** A request that returns leaves its result in the cache of the clique. *)
Lemma request_cached (fuel : nat) (st st' : state) (c R : ptr) m :
  request fuel st c R = Ret m st' ->
  exists n, find c (tree st') = Some n /\ cachedSeparatorMarginal_ n = Some m.
Proof.
  destruct fuel as [|fuel]; [discriminate|]. cbn [separatorMarginal].
  destruct (find c (tree st)) as [n|] eqn:Hfind; [|discriminate].
  destruct (cachedSeparatorMarginal_ n) as [v|] eqn:Hcache.
  { intros H. injection H as <- <-. now exists n. }
  destruct (Nat.eqb R c) eqn:HR.
  { intros H. injection H as <- <-. cbn [tree].
    now apply find_setCache_same with n. }
  destruct (lock (tree st) (parent_ n)) as [p|]; [|discriminate].
  destruct (request fuel st p R) as [m1 st1|e st1| |] eqn:Hrec;
    try discriminate.
  apply request_shape in Hrec.
  destruct (find p (tree st1)) as [n1|]; [|discriminate].
  destruct (conditional_ n1); [|discriminate].
  destruct (conditional_ n); [|discriminate].
  destruct (jointBayesNet _ _); [discriminate|].
  intros H. injection H as <- <-. cbn [tree].
  destruct (shape_find c (tree st) (tree st1) n (eq_sym Hrec) Hfind)
    as (n' & Hn' & _).
  now apply find_setCache_same with n'.
Qed.

(** ** equals and print *)

(** What [equals] gives in each of the states of the two conditionals. *)
Lemma equals_cases (c other : clique) (tol : Tol) :
  equals conditional_equals c other tol =
  match conditional_ c, conditional_ other with
  | None, None => Value true
  | Some mine, Some theirs => Value (conditional_equals mine theirs tol)
  | _, _ => Undef NullConditional
  end.
Proof.
  unfold equals.
  destruct (conditional_ c), (conditional_ other); reflexivity.
Qed.

(** C10: [print] dereferences [conditional_] without a test.  On a clique
    without a conditional (the placeholder state) the call dereferences the
    null pointer; on a clique with a conditional it prints that conditional;
    there is no third result, so no error is reported for the placeholder
    state, and the call is defined exactly when the clique has a
    conditional. *)
Theorem print_needs_conditional (c : clique) (s : string)
  (keyFormatter : Key -> string) :
  (conditional_ c = None ->
   print conditional_print c s keyFormatter = Undef NullConditional)
  /\ (forall cond, conditional_ c = Some cond ->
      print conditional_print c s keyFormatter
      = Value (conditional_print s keyFormatter cond))
  /\ ((exists text, print conditional_print c s keyFormatter = Value text)
      <-> conditional_ c <> None).
Proof.
  unfold print. destruct (conditional_ c) as [cond|].
  - split; [discriminate|]. split.
    + intros ? [= <-]. reflexivity.
    + split; [discriminate|]. intros _. eexists. reflexivity.
  - split; [reflexivity|]. split; [discriminate|].
    split; [intros [? H]; discriminate H|]. intros H. now elim H.
Qed.

(** ** treeSize and numCachedSeparatorMarginals *)

(** C8: in a tree that fits in memory, [treeSize] of a clique is 1 plus the
    sum of [treeSize] over its children, and [treeSize] of a leaf is 1. *)
Theorem treeSize_children (c : clique) :
  fitsInMemory c ->
  treeSize c = 1 + sum_over treeSize (children c)
  /\ (children c = [] -> treeSize c = 1).
Proof.
  intros Hfit. split.
  - rewrite treeSize_cliqueCount, cliqueCount_unfold by exact Hfit.
    f_equal. apply sum_over_ext. intros x Hx. symmetry.
    apply treeSize_cliqueCount. unfold fitsInMemory in *.
    pose proof (cliqueCount_child c x Hx). lia.
  - intros Hleaf. rewrite treeSize_unfold, Hleaf. reflexivity.
Qed.

(** C5: with an empty cache [numCachedSeparatorMarginals] is 0 whatever the
    children are; with a populated cache it is 1 plus the sum of
    [numCachedSeparatorMarginals] over all the children, populated or not
    (in a tree that fits in memory). *)
Theorem numCachedSeparatorMarginals_cases (c : clique) :
  (cachedSeparatorMarginal_ c = None ->
   numCachedSeparatorMarginals c = 0
   /\ forall others : list clique,
       numCachedSeparatorMarginals
         (mkClique (this c) (conditional_ c) (parent_ c) others None) = 0)
  /\ (cachedSeparatorMarginal_ c <> None -> fitsInMemory c ->
      numCachedSeparatorMarginals c
      = 1 + sum_over numCachedSeparatorMarginals (children c)).
Proof.
  split.
  - intros Hc. rewrite numCachedSeparatorMarginals_unfold, Hc.
    split; reflexivity.
  - intros Hc Hfit. rewrite numCachedSeparatorMarginals_unfold.
    destruct (cachedSeparatorMarginal_ c) as [m|]; [|now elim Hc].
    assert (Hb : forall x, In x (children c) ->
                0 <= numCachedSeparatorMarginals x <= cliqueCount x).
    { intros x Hx. apply numCachedSeparatorMarginals_bounds.
      unfold fitsInMemory in *. pose proof (cliqueCount_child c x Hx). lia. }
    unfold fitsInMemory in Hfit. rewrite cliqueCount_unfold in Hfit.
    assert (sum_over numCachedSeparatorMarginals (children c)
            <= sum_over cliqueCount (children c))
      by (apply sum_over_le; intros; now apply Hb).
    rewrite foreach_add; try lia. intros; now apply Hb.
Qed.

(** ** separatorMarginal: the cases of one request *)

(** A cache hit returns the stored collection and leaves the state as it
    is. *)
Lemma request_hit (fuel : nat) (st : state) (c R : ptr) (n : clique) v :
  find c (tree st) = Some n -> cachedSeparatorMarginal_ n = Some v ->
  request (S fuel) st c R = Ret v st.
Proof. intros Hf Hc. cbn [separatorMarginal]. now rewrite Hf, Hc. Qed.

(** On a miss at the reference itself the empty collection is stored and
    returned. *)
Lemma request_miss_reference (fuel : nat) (st : state) (R : ptr) (r : clique) :
  find R (tree st) = Some r -> cachedSeparatorMarginal_ r = None ->
  request (S fuel) st R R
  = Ret [] (mkState (setCache R (Some []) (tree st)) (eliminations st)).
Proof.
  intros Hf Hc. cbn [separatorMarginal]. now rewrite Hf, Hc, Nat.eqb_refl.
Qed.

(** C2, as amended: a request for [(R, R)] never runs the elimination.  It
    returns the empty collection, and stores it, when the cache of [R] is
    empty; when the cache of [R] is populated it returns what the cache
    holds. *)
Theorem separatorMarginal_of_reference (fuel : nat) (st : state) (R : ptr)
  (r : clique) :
  find R (tree st) = Some r ->
  exists m st',
    request (S fuel) st R R = Ret m st'
    /\ eliminations st' = eliminations st
    /\ (cachedSeparatorMarginal_ r = None ->
        m = [] /\ tree st' = setCache R (Some []) (tree st))
    /\ (forall v, cachedSeparatorMarginal_ r = Some v -> m = v /\ st' = st).
Proof.
  intros Hf. destruct (cachedSeparatorMarginal_ r) as [v|] eqn:Hc.
  - exists v, st. split; [now apply request_hit with r|].
    repeat split; try discriminate; congruence.
  - eexists _, _. split; [now apply request_miss_reference with r|].
    cbn [tree eliminations]. repeat split; discriminate.
Qed.

(** C3: a request served from the cache returns the stored collection and
    leaves every clique and the count of eliminations as they are; and after
    a request that returned, the same request returns the same collection,
    again without changing the state: no elimination is run. *)
Theorem separatorMarginal_idempotent (st : state) (c R : ptr) :
  (forall fuel n v,
      find c (tree st) = Some n -> cachedSeparatorMarginal_ n = Some v ->
      request (S fuel) st c R = Ret v st)
  /\ (forall fuel fuel' m st1,
      request fuel st c R = Ret m st1 ->
      request (S fuel') st1 c R = Ret m st1).
Proof.
  split.
  - intros fuel n v. apply request_hit.
  - intros fuel fuel' m st1 H.
    apply request_cached in H as (n & Hf & Hc).
    now apply request_hit with n.
Qed.

(** C6, as amended: for a clique [c] other than [R] whose parent pointer
    locks to null, a request returns the cached collection when the cache of
    [c] is populated; when it is empty the code calls [separatorMarginal]
    through the null pointer: there is no test and no error. *)
Theorem separatorMarginal_without_parent (fuel : nat) (st : state)
  (c R : ptr) (n : clique) :
  c <> R -> find c (tree st) = Some n ->
  lock (tree st) (parent_ n) = None ->
  (forall v, cachedSeparatorMarginal_ n = Some v ->
             request (S fuel) st c R = Ret v st)
  /\ (cachedSeparatorMarginal_ n = None ->
      request (S fuel) st c R = Undefined NullParent).
Proof.
  intros Hne Hf Hlock. split.
  - intros v. now apply request_hit.
  - intros Hc. cbn [separatorMarginal]. rewrite Hf, Hc, Hlock.
    destruct (Nat.eqb R c) eqn:E; [|reflexivity].
    apply Nat.eqb_eq in E. congruence.
Qed.

(** ** separatorMarginal: the path to the reference *)

Lemma pathTo_alive (T : clique) (R c : ptr) (path : list ptr) :
  pathTo T R c path -> exists n, find c T = Some n.
Proof. intros [r H|? n ? ? _ H _ _]; eauto. Qed.

Lemma upwardClosed_tail (T : clique) (c : ptr) (path : list ptr) :
  upwardClosed T (c :: path) -> upwardClosed T path.
Proof. now intros [_ H]. Qed.

(** C1, as amended: let [R] be an ancestor of [c], every clique have a
    conditional and the elimination succeed.  If every clique of the path
    from [c] to [R] that is already populated has only populated cliques
    above it on the path, then a request for [(c, R)] returns, the cache of
    [c] holds the returned marginal, and every clique of the path ([R]
    excluded) has a populated cache. *)
Theorem separatorMarginal_populates_path (st : state) (c R : ptr)
  (path : list ptr) (fuel : nat) :
  pathTo (tree st) R c path ->
  upwardClosed (tree st) path ->
  operational (tree st) ->
  (forall p_Cp indicesS, exists m, jointBayesNet p_Cp indicesS = inr m) ->
  (List.length path < fuel)%nat ->
  exists m st',
    request fuel st c R = Ret m st'
    /\ (exists n, find c (tree st') = Some n
                  /\ cachedSeparatorMarginal_ n = Some m)
    /\ (forall x, In x path -> cached (tree st') x = true).
Proof.
  intros Hpath Hup Hop Helim. revert fuel.
  induction Hpath as [r Hr|c n p path Hne Hf Hp Hpath IH]; intros fuel Hfuel.
  - destruct fuel as [|fuel]; [cbn in Hfuel; lia|].
    assert (Hreq : exists m st', request (S fuel) st R R = Ret m st').
    { destruct (cachedSeparatorMarginal_ r) as [v|] eqn:Hc.
      - exists v, st. now apply request_hit with r.
      - eexists _, _. now apply request_miss_reference with r. }
    destruct Hreq as (m & st' & Hreq).
    exists m, st'. split; [exact Hreq|]. split; [|intros x []].
    now apply request_cached in Hreq.
  - destruct fuel as [|fuel]; [cbn in Hfuel; lia|].
    cbn [List.length] in Hfuel.
    destruct (cachedSeparatorMarginal_ n) as [v|] eqn:Hc.
    + exists v, st. split; [now apply request_hit with n|].
      split; [now exists n|].
      assert (Hcc : cached (tree st) c = true)
        by (apply cached_true; now exists n, v).
      intros x [<-|Hx]; [exact Hcc|]. destruct Hup as [Hup _]. now apply Hup.
    + destruct (IH (upwardClosed_tail _ _ _ Hup) fuel ltac:(lia))
        as (m1 & st1 & Hreq & (n1 & Hf1 & Hc1) & Hall).
      pose proof (request_shape _ _ _ _ _ _ Hreq) as Hs.
      destruct (pathTo_alive _ _ _ _ Hpath) as (n0 & Hf0).
      destruct (shape_find p _ _ n1 Hs Hf1) as (n0' & Hf0' & Hs0).
      assert (n0' = n0) by congruence. subst n0'.
      destruct (conditional_ n1) as [p_Fp_Sp|] eqn:Hcond1.
      2:{ exfalso. apply (Hop n0); [now apply find_Some in Hf0|].
          apply shape_fields in Hs0. unfold fields in Hs0. congruence. }
      destruct (conditional_ n) as [p_F_S|] eqn:Hcond.
      2:{ exfalso. apply (Hop n); [now apply find_Some in Hf|exact Hcond]. }
      destruct (Helim (m1 ++ [toFactor p_Fp_Sp]) (parents p_F_S)) as (m & Hm).
      assert (Hreq' : request (S fuel) st c R
                      = Ret m (mkState (setCache c (Some m) (tree st1))
                                       (S (eliminations st1)))).
      { cbn [separatorMarginal]. rewrite Hf, Hc.
        destruct (Nat.eqb R c) eqn:E;
          [apply Nat.eqb_eq in E; congruence|].
        unfold lock. rewrite Hp, Hf0, Hreq, Hf1, Hcond1, Hcond, Hm.
        reflexivity. }
      eexists _, _. split; [exact Hreq'|].
      split; [now apply request_cached in Hreq'|].
      cbn [tree]. intros x [<-|Hx].
      * apply request_cached in Hreq'. apply cached_true.
        destruct Hreq' as (n' & Hn' & Hc'). now exists n', m.
      * apply cached_setCache_keeps, Hall, Hx.
Qed.

(** ** Empty and closed trees *)

Lemma allAbsent_unfold (c : clique) :
  allAbsent c <->
  cachedSeparatorMarginal_ c = None
  /\ forall child, In child (children c) -> allAbsent child.
Proof.
  unfold allAbsent. split.
  - intros H. split; [apply H, subtree_self|].
    intros child Hc n Hn. apply H. now apply subtree_child with child.
  - intros [H0 H] n Hn.
    apply subtree_inv in Hn as [->|(child & Hc & Hn)]; [exact H0|].
    now apply (H child).
Qed.

Lemma closed_unfold (c : clique) :
  closed c <->
  (cachedSeparatorMarginal_ c = None ->
   forall child, In child (children c) -> allAbsent child)
  /\ forall child, In child (children c) -> closed child.
Proof.
  destruct c as [a cond p ch cache].
  cbn [closed children cachedSeparatorMarginal_].
  assert (H : fold_right (fun child rest => closed child /\ rest) True ch
              <-> forall child : clique, In child ch -> closed child).
  { induction ch as [|x ch IH]; cbn [fold_right In]; [tauto|].
    rewrite IH. split.
    - intros [Hx Hl] child [<-|Hc]; auto.
    - intros H. split; [apply H; now left|]. intros; apply H; now right. }
  now rewrite H.
Qed.

Lemma allAbsent_closed (c : clique) : allAbsent c -> closed c.
Proof.
  induction c as [a cond p ch cache IH] using Clique_nested_ind.
  intros H. apply allAbsent_unfold in H as [_ H].
  apply closed_unfold. cbn [children] in *. split; [intros _; exact H|].
  intros child Hc. rewrite Forall_forall in IH. apply IH; auto.
Qed.

Lemma closed_subtree (T n : clique) :
  closed T -> In n (subtree T) -> closed n.
Proof.
  induction T as [a cond p ch cache IH] using Clique_nested_ind.
  intros Hcl Hn. apply subtree_inv in Hn as [->|(child & Hc & Hn)];
    [exact Hcl|].
  apply closed_unfold in Hcl as [_ Hcl]. rewrite Forall_forall in IH.
  apply (IH child Hc); auto.
Qed.

Lemma allAbsent_shape (c : clique) : allAbsent (shape c).
Proof.
  intros n Hn. rewrite (rebuilds_subtree shape c shape_rebuilds) in Hn.
  apply in_map_iff in Hn as (n0 & <- & _). destruct n0; reflexivity.
Qed.

Lemma shape_idempotent (c : clique) : shape (shape c) = shape c.
Proof.
  induction c as [a cond p ch cache IH] using Clique_nested_ind.
  cbn [shape this conditional_ parent_ children]. f_equal.
  rewrite map_map. induction IH as [|x l Hx _ IHl]; [reflexivity|].
  cbn [map]. now rewrite Hx, IHl.
Qed.

(** ** deleteCachedShortcuts on a closed tree *)

Lemma deleteCachedShortcuts_cache (c : clique) :
  cachedSeparatorMarginal_ (deleteCachedShortcuts c) = None.
Proof.
  rewrite deleteCachedShortcuts_unfold.
  destruct (cachedSeparatorMarginal_ c) eqn:E; [reflexivity|exact E].
Qed.

Lemma deleteCachedShortcuts_allAbsent (c : clique) :
  closed c -> allAbsent (deleteCachedShortcuts c).
Proof.
  induction c as [a cond p ch cache IH] using Clique_nested_ind.
  intros Hcl. apply closed_unfold in Hcl as [Habs Hcl].
  cbn [children cachedSeparatorMarginal_] in *.
  rewrite deleteCachedShortcuts_unfold.
  cbn [this conditional_ parent_ children cachedSeparatorMarginal_].
  destruct cache as [m|]; apply allAbsent_unfold;
    cbn [children cachedSeparatorMarginal_]; (split; [reflexivity|]).
  - intros child' Hc. apply in_map_iff in Hc as (child & <- & Hc).
    rewrite Forall_forall in IH. apply IH; auto.
  - now apply Habs.
Qed.

Lemma call_deleteCachedShortcuts_allAbsent (a : ptr) (c : clique) :
  allAbsent c -> call_deleteCachedShortcuts a c = c.
Proof.
  induction c as [b cond p ch cache IH] using Clique_nested_ind.
  intros H. apply allAbsent_unfold in H as [H0 H].
  cbn [children cachedSeparatorMarginal_] in *. subst cache.
  rewrite call_deleteCachedShortcuts_unfold.
  cbn [this conditional_ parent_ children cachedSeparatorMarginal_].
  destruct (Nat.eqb b a); [reflexivity|]. f_equal.
  induction IH as [|x l Hx _ IHl]; [reflexivity|].
  cbn [map]. rewrite Hx, IHl; [reflexivity| |].
  - intros; apply H; now right.
  - apply H; now left.
Qed.

Lemma call_deleteCachedShortcuts_closed (a : ptr) (c : clique) :
  closed c -> closed (call_deleteCachedShortcuts a c).
Proof.
  induction c as [b cond p ch cache IH] using Clique_nested_ind.
  intros Hcl. rewrite call_deleteCachedShortcuts_unfold.
  cbn [this conditional_ parent_ children cachedSeparatorMarginal_].
  destruct (Nat.eqb b a).
  { now apply allAbsent_closed, deleteCachedShortcuts_allAbsent. }
  apply closed_unfold in Hcl as [Habs Hcl]. apply closed_unfold.
  cbn [children cachedSeparatorMarginal_] in *. split.
  - intros H0 child' Hc. apply in_map_iff in Hc as (child & <- & Hc).
    rewrite call_deleteCachedShortcuts_allAbsent; now apply Habs.
  - intros child' Hc. apply in_map_iff in Hc as (child & <- & Hc).
    rewrite Forall_forall in IH. apply IH; auto.
Qed.

(** ** Distinct addresses *)

Lemma addresses_unfold (c : clique) :
  addresses c = this c :: flat_map addresses (children c).
Proof.
  unfold addresses. rewrite subtree_unfold. cbn [map]. f_equal.
  induction (children c) as [|x l IH]; [reflexivity|].
  cbn [flat_map]. now rewrite map_app, IH.
Qed.

Lemma addresses_self (c : clique) : In (this c) (addresses c).
Proof. rewrite addresses_unfold. now left. Qed.

Lemma addresses_In (c n : clique) :
  In n (subtree c) -> In (this n) (addresses c).
Proof. intros H. unfold addresses. now apply in_map. Qed.

Lemma NoDup_flat_map_elem {A B : Type} (f : A -> list B) (l : list A) x :
  NoDup (flat_map f l) -> In x l -> NoDup (f x).
Proof.
  induction l as [|y l IH]; cbn [flat_map In]; [tauto|].
  intros Hnd [<-|Hx].
  - now apply NoDup_app_remove_r in Hnd.
  - apply IH; [|exact Hx]. now apply NoDup_app_remove_l in Hnd.
Qed.

Lemma NoDup_child (c child : clique) :
  NoDup (addresses c) -> In child (children c) ->
  NoDup (addresses child) /\ ~ In (this c) (addresses child).
Proof.
  rewrite addresses_unfold. intros Hnd Hc.
  apply NoDup_cons_iff in Hnd as [Hnotin Hnd]. split.
  - now apply NoDup_flat_map_elem with (l := children c).
  - intros H. apply Hnotin, in_flat_map. now exists child.
Qed.

Lemma NoDup_map_In_inj {A B : Type} (f : A -> B) (l : list A) x y :
  NoDup (map f l) -> In x l -> In y l -> f x = f y -> x = y.
Proof.
  induction l as [|z l IH]; cbn [map In]; [tauto|].
  intros Hnd Hx Hy Heq. apply NoDup_cons_iff in Hnd as [Hnotin Hnd].
  destruct Hx as [<-|Hx], Hy as [<-|Hy]; auto.
  - exfalso. apply Hnotin. rewrite Heq. now apply in_map.
  - exfalso. apply Hnotin. rewrite <- Heq. now apply in_map.
Qed.

Lemma unique_address (T n1 n2 : clique) :
  NoDup (addresses T) -> In n1 (subtree T) -> In n2 (subtree T) ->
  this n1 = this n2 -> n1 = n2.
Proof. apply NoDup_map_In_inj. Qed.

Lemma find_unique (T n : clique) :
  NoDup (addresses T) -> In n (subtree T) -> find (this n) T = Some n.
Proof.
  intros Hnd Hn. destruct (find_alive (this n) T (addresses_In T n Hn))
    as (n' & Hf).
  rewrite Hf. f_equal. apply find_Some in Hf as [Heq Hin].
  now apply (unique_address T).
Qed.

Lemma setCache_absent (a : ptr) (v : option (list Factor)) (c : clique) :
  ~ In a (addresses c) -> setCache a v c = c.
Proof.
  induction c as [b cond p ch cache IH] using Clique_nested_ind.
  rewrite addresses_unfold. cbn [this children setCache In].
  intros H. destruct (Nat.eqb_spec b a) as [->|_]; [tauto|]. f_equal.
  assert (Hch : forall x, In x ch -> ~ In a (addresses x)).
  { intros x Hx Hin. apply H. right. apply in_flat_map. now exists x. }
  clear H. induction IH as [|x l Hx _ IHl]; [reflexivity|].
  cbn [map]. rewrite Hx, IHl; [reflexivity| |].
  - intros; apply Hch; now right.
  - apply Hch; now left.
Qed.

Lemma subtree_parent (c n : clique) :
  In n (subtree c) ->
  n = c \/ exists q, In q (subtree c) /\ In n (children q).
Proof.
  induction c as [a cond p ch cache IH] using Clique_nested_ind.
  intros Hn. apply subtree_inv in Hn as [->|(child & Hc & Hn)]; [now left|].
  right. rewrite Forall_forall in IH.
  destruct (IH child Hc Hn) as [->|(q & Hq & Hnq)].
  - exists (mkClique a cond p ch cache). split; [apply subtree_self|exact Hc].
  - exists q. split; [|exact Hnq]. now apply subtree_child with child.
Qed.

(** ** Writing a cache in a closed tree *)

(** Populating the clique at an address leaves its own children as they
    are, when addresses are distinct. *)
Lemma setCache_here (c : clique) (m : list Factor) :
  NoDup (addresses c) ->
  setCache (this c) (Some m) c
  = mkClique (this c) (conditional_ c) (parent_ c) (children c) (Some m).
Proof.
  intros Hnd. destruct c as [a cond p ch cache].
  cbn [setCache this conditional_ parent_ children cachedSeparatorMarginal_].
  rewrite Nat.eqb_refl. f_equal.
  assert (H : forall x, In x ch -> setCache a (Some m) x = x).
  { intros x Hx. apply setCache_absent.
    now apply (NoDup_child (mkClique a cond p ch cache) x Hnd). }
  clear Hnd. induction ch as [|x ch IH]; [reflexivity|].
  cbn [map]. rewrite H, IH; [reflexivity| |now left].
  intros; apply H; now right.
Qed.

Lemma setCache_here_closed (c : clique) (m : list Factor) :
  NoDup (addresses c) -> closed c -> closed (setCache (this c) (Some m) c).
Proof.
  intros Hnd Hcl. rewrite setCache_here by exact Hnd.
  apply closed_unfold in Hcl as [_ Hcl]. apply closed_unfold.
  cbn [children cachedSeparatorMarginal_]. split; [discriminate|exact Hcl].
Qed.

(** Populating a clique whose owner is populated keeps the tree closed. *)
Lemma setCache_closed (self : ptr) (m : list Factor) (c : clique) :
  NoDup (addresses c) -> closed c -> this c <> self ->
  (forall q child, In q (subtree c) -> In child (children q) ->
                   this child = self -> cachedSeparatorMarginal_ q <> None) ->
  closed (setCache self (Some m) c).
Proof.
  induction c as [a cond p ch cache IH] using Clique_nested_ind.
  intros Hnd Hcl Hne Hown. rewrite Forall_forall in IH.
  apply closed_unfold in Hcl as [Habs Hcl].
  cbn [this children cachedSeparatorMarginal_] in Habs, Hcl, Hne.
  cbn [setCache this conditional_ parent_ children cachedSeparatorMarginal_].
  destruct (Nat.eqb_spec a self) as [E|_]; [contradiction|].
  apply closed_unfold. cbn [children cachedSeparatorMarginal_]. split.
  - intros H0 child' Hc. apply in_map_iff in Hc as (child & <- & Hc).
    rewrite setCache_absent; [now apply Habs|].
    intros Hin. apply in_map_iff in Hin as (n & Hn & Hin).
    destruct (subtree_parent child n Hin) as [->|(q & Hq & Hnq)].
    + apply (Hown (mkClique a cond p ch cache) child); auto.
      apply subtree_self.
    + apply (Hown q n); auto.
      * now apply subtree_child with child.
      * now apply (Habs H0 child Hc).
  - intros child' Hc. apply in_map_iff in Hc as (child & <- & Hc).
    destruct (NoDup_child (mkClique a cond p ch cache) child Hnd Hc)
      as [Hndc _].
    destruct (Nat.eq_dec (this child) self) as [<-|Hnec].
    + now apply setCache_here_closed; [|apply Hcl].
    + apply IH; auto. intros q g Hq. apply Hown.
      now apply subtree_child with child.
Qed.

(** ** Well-formedness depends on the shape only *)

Lemma shape_children (n n' : clique) :
  shape n = shape n' -> map shape (children n) = map shape (children n').
Proof.
  destruct n, n'. cbn [shape this conditional_ parent_ children].
  now intros [= _ _ _ H].
Qed.

Lemma shape_subtree (T T' n' : clique) :
  shape T = shape T' -> In n' (subtree T') ->
  exists n, In n (subtree T) /\ shape n = shape n'.
Proof.
  intros Hs Hn. apply (in_map shape) in Hn.
  rewrite <- (rebuilds_subtree shape T' shape_rebuilds), <- Hs,
    (rebuilds_subtree shape T shape_rebuilds) in Hn.
  apply in_map_iff in Hn as (n & Heq & Hn). now exists n.
Qed.

Lemma shape_this (n n' : clique) : shape n = shape n' -> this n = this n'.
Proof. intros H. apply shape_fields in H. unfold fields in H. congruence. Qed.

Lemma shape_parent (n n' : clique) :
  shape n = shape n' -> parent_ n = parent_ n'.
Proof. intros H. apply shape_fields in H. unfold fields in H. congruence. Qed.

Lemma shape_conditional (n n' : clique) :
  shape n = shape n' -> conditional_ n = conditional_ n'.
Proof. intros H. apply shape_fields in H. unfold fields in H. congruence. Qed.

Lemma wellFormed_shape (T T' : clique) :
  shape T = shape T' -> wellFormed T -> wellFormed T'.
Proof.
  intros Hs [Hnd Hl]. split.
  - now rewrite <- (shape_addresses T T' Hs).
  - intros n' child' Hn' Hc'.
    destruct (shape_subtree T T' n' Hs Hn') as (n & Hn & Hsn).
    apply (in_map shape) in Hc'. rewrite <- (shape_children n n' Hsn) in Hc'.
    apply in_map_iff in Hc' as (child & Hsc & Hc).
    rewrite <- (shape_parent _ _ Hsc), <- (shape_this _ _ Hsn). now apply Hl.
Qed.

(** ** Requests relative to the root keep the tree closed *)

Lemma request_closed (fuel : nat) (st st' : state) (c : ptr) :
  wellFormed (tree st) -> closed (tree st) ->
  endsIn (request fuel st c (this (tree st))) st' ->
  closed (tree st').
Proof.
  intros Hwf Hcl. revert st' c.
  induction fuel as [|fuel IH]; intros st' c H.
  - cbn in H. not_ended.
  - cbn [separatorMarginal] in H. revert H.
    destruct (find c (tree st)) as [n|] eqn:Hfind; [|intros; not_ended].
    destruct (cachedSeparatorMarginal_ n) as [v|] eqn:Hcache.
    { intros H. ended. exact Hcl. }
    destruct (Nat.eqb_spec (this (tree st)) c) as [<-|Hne].
    { intros H. ended. cbn [tree].
      apply setCache_here_closed; [apply Hwf|exact Hcl]. }
    unfold lock. destruct (parent_ n) as [p|] eqn:Hp; [|intros; not_ended].
    destruct (find p (tree st)) as [n0|] eqn:Hf0; [|intros; not_ended].
    destruct (request fuel st p (this (tree st))) as [m1 st1|e st1| |]
      eqn:Hrec; try (intros; not_ended).
    + assert (Hcl1 : closed (tree st1))
        by (apply (IH st1 p); left; now exists m1).
      pose proof (request_shape _ _ _ _ _ _ Hrec) as Hs.
      pose proof (wellFormed_shape _ _ (eq_sym Hs) Hwf) as [Hnd1 Hl1].
      destruct (request_cached _ _ _ _ _ _ Hrec) as (n1 & Hf1 & Hc1).
      rewrite Hf1.
      destruct (conditional_ n1); [|intros; not_ended].
      destruct (conditional_ n); [|intros; not_ended].
      destruct (jointBayesNet _ _); intros H; ended; cbn [tree];
        [exact Hcl1|].
      destruct (shape_find c _ _ n (eq_sym Hs) Hfind) as (n' & Hf' & Hsn).
      apply setCache_closed; auto.
      * rewrite (shape_this _ _ Hs). exact Hne.
      * intros q child Hq Hc Hthis.
        assert (Hchild : In child (subtree (tree st1))).
        { apply subtree_trans with q; [exact Hq|].
          apply subtree_child with child; [exact Hc|apply subtree_self]. }
        assert (child = n').
        { apply find_Some in Hf' as [Hthis' Hin'].
          apply (unique_address (tree st1)); auto. congruence. }
        subst child.
        assert (Hpq : this q = p).
        { pose proof (Hl1 q n' Hq Hc) as Hq'.
          rewrite <- (shape_parent _ _ Hsn) in Hq'. congruence. }
        assert (q = n1).
        { apply find_Some in Hf1 as [Hthis1 Hin1].
          apply (unique_address (tree st1)); auto. congruence. }
        subst q. congruence.
    + intros H. ended. apply (IH st' p). right. now exists e.
Qed.

(** The states reached by requests relative to the root, and by
    invalidations, are closed and have the shape of the first tree. *)
Lemma reachable_closed (T0 : clique) (st : state) :
  wellFormed T0 ->
  reachable toFactor parents jointBayesNet true T0 st ->
  closed (tree st) /\ shape (tree st) = shape T0.
Proof.
  intros Hwf Hreach.
  induction Hreach as [|st fuel c R m st' _ [Hcl Hs] HR _ Hreq
                       |st fuel c R e st' _ [Hcl Hs] HR _ Hreq
                       |st a _ [Hcl Hs]].
  - cbn [tree]. split; [apply allAbsent_closed, allAbsent_shape|].
    apply shape_idempotent.
  - rewrite (HR eq_refl), (shape_this _ _ (eq_sym Hs)) in Hreq. split.
    + apply (request_closed fuel st st' c); auto.
      * now apply (wellFormed_shape T0).
      * left. now exists m.
    + apply request_shape in Hreq. congruence.
  - rewrite (HR eq_refl), (shape_this _ _ (eq_sym Hs)) in Hreq.
    assert (Hend : endsIn (request fuel st c (this (tree st))) st')
      by (right; now exists e).
    split.
    + apply (request_closed fuel st st' c); auto.
      now apply (wellFormed_shape T0).
    + apply request_frame in Hend as [Hs' _]. congruence.
  - cbn [tree]. split; [now apply call_deleteCachedShortcuts_closed|].
    now rewrite shape_call_deleteCachedShortcuts.
Qed.

(** ** deleteCachedShortcuts: invalidation *)

(** C4, as amended: [deleteCachedShortcuts] returns the clique as it is when
    its cache is empty; when the cache is populated it is run on every child
    and then the cache of the clique is emptied; afterwards
    [numCachedSeparatorMarginals] is 0; and, in a state reached from empty
    caches by requests relative to the root of the tree (and by
    invalidations), every clique below has an empty cache afterwards. *)
Theorem deleteCachedShortcuts_invalidates (c : clique) :
  (cachedSeparatorMarginal_ c = None -> deleteCachedShortcuts c = c)
  /\ (cachedSeparatorMarginal_ c <> None ->
      deleteCachedShortcuts c
      = mkClique (this c) (conditional_ c) (parent_ c)
                 (map deleteCachedShortcuts (children c)) None)
  /\ numCachedSeparatorMarginals (deleteCachedShortcuts c) = 0
  /\ (forall T0 st a,
      wellFormed T0 ->
      reachable toFactor parents jointBayesNet true T0 st ->
      find a (tree st) = Some c ->
      forall d, In d (descendants (deleteCachedShortcuts c)) ->
                cachedSeparatorMarginal_ d = None).
Proof.
  split; [|split; [|split]].
  - intros H. now rewrite deleteCachedShortcuts_unfold, H.
  - intros H. rewrite deleteCachedShortcuts_unfold.
    destruct (cachedSeparatorMarginal_ c); [reflexivity|now elim H].
  - rewrite numCachedSeparatorMarginals_unfold.
    now rewrite deleteCachedShortcuts_cache.
  - intros T0 st a Hwf Hreach Hfind d Hd.
    destruct (reachable_closed T0 st Hwf Hreach) as [Hcl _].
    apply find_Some in Hfind as [_ Hin].
    pose proof (closed_subtree _ _ Hcl Hin) as Hc.
    apply (deleteCachedShortcuts_allAbsent c Hc).
    rewrite subtree_unfold. right. exact Hd.
Qed.

(** ** The frame of the three operations *)

Lemma find_unfold (x : ptr) (c : clique) :
  find x c =
  if Nat.eqb (this c) x then Some c
  else List.find (fun n => Nat.eqb (this n) x)
                 (flat_map subtree (children c)).
Proof. unfold find. rewrite subtree_unfold. reflexivity. Qed.

Lemma find_app {A : Type} (f : A -> bool) (l1 l2 : list A) :
  List.find f (l1 ++ l2)
  = match List.find f l1 with Some y => Some y | None => List.find f l2 end.
Proof.
  induction l1 as [|y l1 IH]; [reflexivity|].
  cbn [app List.find]. now destruct (f y).
Qed.

Lemma find_children_congr {B : Type} (g : clique -> B)
  (f : clique -> clique) (x : ptr) (ch : list clique) :
  (forall y, In y ch ->
     option_map g (find x (f y)) = option_map g (find x y)) ->
  option_map g (List.find (fun n => Nat.eqb (this n) x)
                          (flat_map subtree (map f ch)))
  = option_map g (List.find (fun n => Nat.eqb (this n) x)
                            (flat_map subtree ch)).
Proof.
  induction ch as [|y ch IH]; intros H; [reflexivity|].
  cbn [map flat_map]. rewrite !find_app.
  pose proof (H y (or_introl eq_refl)) as Hy. unfold find in Hy.
  destruct (List.find _ (subtree (f y))), (List.find _ (subtree y));
    try discriminate Hy; [exact Hy|].
  apply IH. intros; apply H; now right.
Qed.

(** The caches of the cliques outside the tree under the called clique are
    what they were. *)
Lemma call_deleteCachedShortcuts_outside (a x : ptr) (T : clique) :
  (forall c, In c (subtree T) -> this c = a -> ~ In x (addresses c)) ->
  option_map cachedSeparatorMarginal_ (find x (call_deleteCachedShortcuts a T))
  = option_map cachedSeparatorMarginal_ (find x T).
Proof.
  induction T as [b cond p ch cache IH] using Clique_nested_ind.
  intros Hout. rewrite Forall_forall in IH.
  rewrite call_deleteCachedShortcuts_unfold.
  cbn [this conditional_ parent_ children cachedSeparatorMarginal_].
  destruct (Nat.eqb_spec b a) as [E|Hne].
  - specialize (Hout _ (subtree_self _) E).
    destruct (find x (deleteCachedShortcuts _)) as [n|] eqn:E1.
    + exfalso. apply Hout. apply find_Some in E1 as [<- Hin].
      apply addresses_In in Hin.
      now rewrite <- (shape_addresses _ _ (shape_deleteCachedShortcuts _)).
    + destruct (find x (mkClique b cond p ch cache)) as [n|] eqn:E2;
        [|reflexivity].
      exfalso. apply Hout. apply find_Some in E2 as [<- Hin].
      now apply addresses_In.
  - rewrite !find_unfold. cbn [this children].
    destruct (Nat.eqb b x); [reflexivity|].
    apply find_children_congr. intros y Hy. apply IH; [exact Hy|].
    intros c Hc. apply Hout. now apply subtree_child with y.
Qed.

(** C9: [treeSize] and [numCachedSeparatorMarginals] leave the tree as it
    is.  [deleteCachedShortcuts] leaves the tree with the same shape: on
    every clique the address, the conditional (and with it the frontal
    keys), the parent pointer and the children are what they were; and the
    cache of a clique that is neither the called clique nor below it is what
    it was. *)
Theorem operations_frame (a : ptr) (T : clique) :
  (forall v T', call_treeSize a T = Value (v, T') -> T' = T)
  /\ (forall v T',
         call_numCachedSeparatorMarginals a T = Value (v, T') -> T' = T)
  /\ shape (call_deleteCachedShortcuts a T) = shape T
  /\ (forall x n, find x T = Some n ->
        exists n', find x (call_deleteCachedShortcuts a T) = Some n'
                   /\ fields n' = fields n)
  /\ (forall x,
        (forall c, In c (subtree T) -> this c = a -> ~ In x (addresses c)) ->
        option_map cachedSeparatorMarginal_
                   (find x (call_deleteCachedShortcuts a T))
        = option_map cachedSeparatorMarginal_ (find x T)).
Proof.
  split; [|split; [|split; [|split]]].
  - unfold call_treeSize. destruct (find a T); [|discriminate].
    now intros v T' [= _ <-].
  - unfold call_numCachedSeparatorMarginals.
    destruct (find a T); [|discriminate]. now intros v T' [= _ <-].
  - apply shape_call_deleteCachedShortcuts.
  - intros x n Hf.
    destruct (shape_find x T (call_deleteCachedShortcuts a T) n
                (eq_sym (shape_call_deleteCachedShortcuts a T)) Hf)
      as (n' & Hf' & Hs).
    exists n'. split; [exact Hf'|]. symmetry. now apply shape_fields.
  - intros x. apply call_deleteCachedShortcuts_outside.
Qed.

(** * Further properties of the recursions *)

(** ** treeSize does not read the caches *)

Lemma fold_left_map_ext {A B C : Type} (f : C -> B -> C) (g : A -> B)
  (h : C -> A -> C) (l : list A) (acc : C) :
  (forall a x, In x l -> f a (g x) = h a x) ->
  fold_left f (map g l) acc = fold_left h l acc.
Proof.
  revert acc. induction l as [|x l IH]; intros acc H; [reflexivity|].
  cbn [map fold_left]. rewrite H by now left.
  apply IH. intros; apply H; now right.
Qed.

Lemma treeSize_shape (c : clique) : treeSize (shape c) = treeSize c.
Proof.
  induction c as [a cond p ch cache IH] using Clique_nested_ind.
  rewrite !treeSize_unfold. cbn [shape children].
  apply fold_left_map_ext. intros acc x Hx.
  rewrite Forall_forall in IH. now rewrite IH.
Qed.

(** X1: [treeSize] is the same before and after an invalidation and before and
    after a request, whatever the size of the tree. *)
Theorem treeSize_unchanged (a : ptr) (T : clique) :
  treeSize (call_deleteCachedShortcuts a T) = treeSize T
  /\ treeSize (deleteCachedShortcuts T) = treeSize T
  /\ forall fuel st c R st',
      endsIn (request fuel st c R) st' ->
      treeSize (tree st') = treeSize (tree st).
Proof.
  split; [|split].
  - rewrite <- (treeSize_shape (call_deleteCachedShortcuts a T)),
      shape_call_deleteCachedShortcuts. apply treeSize_shape.
  - rewrite <- (treeSize_shape (deleteCachedShortcuts T)),
      shape_deleteCachedShortcuts. apply treeSize_shape.
  - intros fuel st c R st' H. apply request_frame in H as [Hs _].
    rewrite <- (treeSize_shape (tree st')), Hs. apply treeSize_shape.
Qed.

(** ** What numCachedSeparatorMarginals counts *)

(** X2: [numCachedSeparatorMarginals] never exceeds [treeSize]. *)
Theorem numCachedSeparatorMarginals_le_treeSize (c : clique) :
  fitsInMemory c ->
  0 <= numCachedSeparatorMarginals c <= treeSize c.
Proof.
  intros Hfit. rewrite (treeSize_cliqueCount c Hfit).
  now apply numCachedSeparatorMarginals_bounds.
Qed.

Lemma numCachedSeparatorMarginals_populated (c : clique) :
  fitsInMemory c -> cachedSeparatorMarginal_ c <> None ->
  numCachedSeparatorMarginals c
  = 1 + sum_over numCachedSeparatorMarginals (children c).
Proof.
  intros Hfit Hc. rewrite numCachedSeparatorMarginals_unfold.
  destruct (cachedSeparatorMarginal_ c) as [m|]; [|now elim Hc].
  assert (Hb : forall x, In x (children c) ->
              0 <= numCachedSeparatorMarginals x <= cliqueCount x).
  { intros x Hx. apply numCachedSeparatorMarginals_bounds.
    unfold fitsInMemory in *. pose proof (cliqueCount_child c x Hx). lia. }
  unfold fitsInMemory in Hfit. rewrite cliqueCount_unfold in Hfit.
  assert (sum_over numCachedSeparatorMarginals (children c)
          <= sum_over cliqueCount (children c))
    by (apply sum_over_le; intros; now apply Hb).
  rewrite foreach_add; try lia. intros; now apply Hb.
Qed.

Lemma populatedCount_unfold (c : clique) :
  populatedCount c
  = (if populated c then 1 else 0) + sum_over populatedCount (children c).
Proof.
  unfold populatedCount. rewrite subtree_unfold. cbn [filter].
  assert (H : Z.of_nat (List.length
                          (filter populated (flat_map subtree (children c))))
              = sum_over (fun x : clique =>
                            Z.of_nat (List.length
                                        (filter populated (subtree x))))
                         (children c)).
  { induction (children c) as [|x ch IH]; [reflexivity|].
    cbn [flat_map]. rewrite sum_over_cons, filter_app, List.length_app,
      Nat2Z.inj_add, IH. reflexivity. }
  destruct (populated c); cbn [List.length];
    [rewrite Nat2Z.inj_succ|]; lia.
Qed.

Lemma populatedCount_nonneg (c : clique) : 0 <= populatedCount c.
Proof. unfold populatedCount. lia. Qed.

Lemma allAbsent_populatedCount (c : clique) :
  allAbsent c -> populatedCount c = 0.
Proof.
  intros H. unfold populatedCount.
  assert (E : filter populated (subtree c) = []).
  { unfold allAbsent in H. revert H. generalize (subtree c) as l.
    induction l as [|x l IH]; intros H; [reflexivity|].
    cbn [filter]. unfold populated at 1. rewrite (H x) by now left.
    cbn. apply IH. intros; apply H; now right. }
  now rewrite E.
Qed.

Lemma fitsInMemory_child (c child : clique) :
  fitsInMemory c -> In child (children c) -> fitsInMemory child.
Proof.
  unfold fitsInMemory. intros H Hc.
  pose proof (cliqueCount_child c child Hc). lia.
Qed.

(** X3: [numCachedSeparatorMarginals] never counts more than the populated
    caches of the tree under the clique: it stops at the first empty cache
    of every branch. *)
Theorem numCachedSeparatorMarginals_le_populated (c : clique) :
  fitsInMemory c ->
  numCachedSeparatorMarginals c <= populatedCount c.
Proof.
  induction c as [a cond p ch cache IH] using Clique_nested_ind.
  intros Hfit. rewrite Forall_forall in IH.
  destruct cache as [m|].
  - rewrite numCachedSeparatorMarginals_populated by (auto; discriminate).
    rewrite populatedCount_unfold. cbn [populated cachedSeparatorMarginal_
      isNull negb children].
    assert (sum_over numCachedSeparatorMarginals ch
            <= sum_over populatedCount ch); [|lia].
    apply sum_over_le. intros x Hx. apply IH; [exact Hx|].
    now apply (fitsInMemory_child (mkClique a cond p ch (Some m))).
  - rewrite numCachedSeparatorMarginals_unfold.
    cbn [cachedSeparatorMarginal_]. apply populatedCount_nonneg.
Qed.

Lemma closed_numCachedSeparatorMarginals (c : clique) :
  fitsInMemory c -> closed c ->
  numCachedSeparatorMarginals c = populatedCount c.
Proof.
  induction c as [a cond p ch cache IH] using Clique_nested_ind.
  intros Hfit Hcl. rewrite Forall_forall in IH.
  pose proof Hcl as Hcl'. apply closed_unfold in Hcl' as [Habs Hch].
  cbn [children cachedSeparatorMarginal_] in Habs, Hch.
  destruct cache as [m|].
  - rewrite numCachedSeparatorMarginals_populated by (auto; discriminate).
    rewrite populatedCount_unfold. cbn [populated cachedSeparatorMarginal_
      isNull negb children]. f_equal.
    apply sum_over_ext. intros x Hx. apply IH; auto.
    now apply (fitsInMemory_child (mkClique a cond p ch (Some m))).
  - rewrite numCachedSeparatorMarginals_unfold.
    cbn [cachedSeparatorMarginal_]. symmetry.
    apply allAbsent_populatedCount, allAbsent_unfold.
    cbn [children cachedSeparatorMarginal_]. split; [reflexivity|].
    now apply Habs.
Qed.

(** X4: When every request was relative to the root of the tree,
    [numCachedSeparatorMarginals] of a clique is the number of populated
    caches in the tree under it. *)
Theorem numCachedSeparatorMarginals_exact (T0 : clique) (st : state)
  (a : ptr) (c : clique) :
  wellFormed T0 ->
  reachable toFactor parents jointBayesNet true T0 st ->
  find a (tree st) = Some c ->
  fitsInMemory c ->
  numCachedSeparatorMarginals c = populatedCount c.
Proof.
  intros Hwf Hreach Hf Hfit.
  destruct (reachable_closed T0 st Hwf Hreach) as [Hcl _].
  apply closed_numCachedSeparatorMarginals; [exact Hfit|].
  apply find_Some in Hf as [_ Hin]. now apply closed_subtree with (tree st).
Qed.

(** ** Invalidation is idempotent *)

Lemma deleteCachedShortcuts_again (c : clique) :
  deleteCachedShortcuts (deleteCachedShortcuts c) = deleteCachedShortcuts c.
Proof.
  rewrite (deleteCachedShortcuts_unfold (deleteCachedShortcuts c)).
  now rewrite deleteCachedShortcuts_cache.
Qed.

(** X5: A second [deleteCachedShortcuts] on the same clique changes nothing. *)
Theorem call_deleteCachedShortcuts_idempotent (a : ptr) (T : clique) :
  call_deleteCachedShortcuts a (call_deleteCachedShortcuts a T)
  = call_deleteCachedShortcuts a T.
Proof.
  induction T as [b cond p ch cache IH] using Clique_nested_ind.
  rewrite (call_deleteCachedShortcuts_unfold a (mkClique b cond p ch cache)).
  cbn [this conditional_ parent_ children cachedSeparatorMarginal_].
  destruct (Nat.eqb b a) eqn:E.
  - rewrite call_deleteCachedShortcuts_unfold.
    assert (Ht : this (deleteCachedShortcuts (mkClique b cond p ch cache)) = b).
    { rewrite deleteCachedShortcuts_unfold. now destruct cache. }
    rewrite Ht, E. apply deleteCachedShortcuts_again.
  - rewrite call_deleteCachedShortcuts_unfold.
    cbn [this conditional_ parent_ children cachedSeparatorMarginal_].
    rewrite E. f_equal. rewrite map_map.
    induction IH as [|x l Hx _ IHl]; [reflexivity|].
    cbn [map]. now rewrite Hx, IHl.
Qed.

(** ** What a request writes *)

Lemma cache_setCache_other (a x : ptr) (v : option (list Factor))
  (T : clique) :
  x <> a ->
  option_map cachedSeparatorMarginal_ (find x (setCache a v T))
  = option_map cachedSeparatorMarginal_ (find x T).
Proof.
  intros Hne. rewrite find_setCache.
  destruct (find x T) as [n|] eqn:E; [|reflexivity]. cbn [option_map].
  rewrite setCache_cache. apply find_Some in E as [<- _].
  destruct (Nat.eqb_spec (this n) a); [contradiction|reflexivity].
Qed.


Lemma request_writes_on_path (st : state) (c R : ptr)
  (path : list ptr) (fuel : nat) (st' : state) (x : ptr) :
  pathTo (tree st) R c path ->
  endsIn (request fuel st c R) st' ->
  ~ In x path -> x <> R ->
  option_map cachedSeparatorMarginal_ (find x (tree st'))
  = option_map cachedSeparatorMarginal_ (find x (tree st)).
Proof.
  intros Hpath. revert fuel st'.
  induction Hpath as [r Hr|c n p path Hne Hf Hp Hpath IH];
    intros fuel st' H Hx HxR.
  - destruct fuel as [|fuel]; [cbn in H; not_ended|].
    cbn [separatorMarginal] in H. rewrite Hr in H.
    destruct (cachedSeparatorMarginal_ r); [ended; reflexivity|].
    rewrite Nat.eqb_refl in H. ended. cbn [tree].
    now apply cache_setCache_other.
  - destruct fuel as [|fuel]; [cbn in H; not_ended|].
    cbn [separatorMarginal] in H. rewrite Hf in H.
    destruct (cachedSeparatorMarginal_ n); [ended; reflexivity|].
    destruct (Nat.eqb_spec R c) as [E|_]; [congruence|].
    unfold lock in H. rewrite Hp in H.
    destruct (find p (tree st)) as [n0|]; [|not_ended].
    assert (Hx' : ~ In x path) by (intros Hin; apply Hx; now right).
    assert (Hxc : x <> c) by (intros ->; apply Hx; now left).
    destruct (request fuel st p R) as [m1 st1|e st1| |] eqn:Hrec;
      try not_ended.
    + assert (H1 : option_map cachedSeparatorMarginal_ (find x (tree st1))
                   = option_map cachedSeparatorMarginal_ (find x (tree st)))
        by (apply (IH fuel st1); auto; left; now exists m1).
      destruct (find p (tree st1)) as [n1|]; [|not_ended].
      destruct (conditional_ n1); [|not_ended].
      destruct (conditional_ n); [|not_ended].
      destruct (jointBayesNet _ _); ended; cbn [tree]; [exact H1|].
      now rewrite cache_setCache_other.
    + ended. apply (IH fuel st'); auto. right. now exists e.
Qed.

(** X7: A request writes the caches of cliques on the path from the clique to
    the reference only: every other cache is what it was. *)
Theorem separatorMarginal_writes_on_path (st : state) (c R : ptr)
  (path : list ptr) (fuel : nat) (st' : state) (x : ptr) :
  pathTo (tree st) R c path ->
  endsIn (request fuel st c R) st' ->
  ~ In x path -> x <> R ->
  option_map cachedSeparatorMarginal_ (find x (tree st'))
  = option_map cachedSeparatorMarginal_ (find x (tree st)).
Proof. apply request_writes_on_path. Qed.

(** ** The cost of a request *)

(** X8: A request runs the elimination at most once for every clique of the
    path from the clique to the reference. *)
Theorem separatorMarginal_eliminations_bound (st : state) (c R : ptr)
  (path : list ptr) (fuel : nat) (st' : state) :
  pathTo (tree st) R c path ->
  endsIn (request fuel st c R) st' ->
  (eliminations st' <= eliminations st + List.length path)%nat.
Proof.
  intros Hpath. revert fuel st'.
  induction Hpath as [r Hr|c n p path Hne Hf Hp Hpath IH]; intros fuel st' H.
  - destruct fuel as [|fuel]; [cbn in H; not_ended|].
    cbn [separatorMarginal] in H. rewrite Hr in H.
    destruct (cachedSeparatorMarginal_ r); [ended; lia|].
    rewrite Nat.eqb_refl in H. ended. cbn [eliminations]. lia.
  - destruct fuel as [|fuel]; [cbn in H; not_ended|].
    cbn [separatorMarginal] in H. rewrite Hf in H. cbn [List.length].
    destruct (cachedSeparatorMarginal_ n); [ended; lia|].
    destruct (Nat.eqb_spec R c) as [E|_]; [congruence|].
    unfold lock in H. rewrite Hp in H.
    destruct (find p (tree st)) as [n0|]; [|not_ended].
    destruct (request fuel st p R) as [m1 st1|e st1| |] eqn:Hrec;
      try not_ended.
    + assert (H1 : (eliminations st1 <= eliminations st + List.length path)%nat)
        by (apply (IH fuel st1); left; now exists m1).
      destruct (find p (tree st1)) as [n1|]; [|not_ended].
      destruct (conditional_ n1); [|not_ended].
      destruct (conditional_ n); [|not_ended].
      destruct (jointBayesNet _ _); ended; cbn [eliminations]; lia.
    + ended.
      assert ((eliminations st' <= eliminations st + List.length path)%nat)
        by (apply (IH fuel st'); right; now exists e).
      lia.
Qed.

(** X9: When no cache of the path is populated, a request that returns has run
    the elimination exactly once for every clique of the path. *)
Theorem separatorMarginal_eliminations_fresh (st : state) (c R : ptr)
  (path : list ptr) (fuel : nat) (m : list Factor) (st' : state) :
  pathTo (tree st) R c path ->
  (forall x, In x path -> cached (tree st) x = false) ->
  request fuel st c R = Ret m st' ->
  eliminations st' = (eliminations st + List.length path)%nat.
Proof.
  intros Hpath. revert fuel m st'.
  induction Hpath as [r Hr|c n p path Hne Hf Hp Hpath IH];
    intros fuel m st' Hmiss H.
  - destruct fuel as [|fuel]; [discriminate|].
    cbn [separatorMarginal] in H. rewrite Hr in H. cbn [List.length].
    destruct (cachedSeparatorMarginal_ r); [injection H as _ <-; lia|].
    rewrite Nat.eqb_refl in H. injection H as _ <-. cbn [eliminations]. lia.
  - destruct fuel as [|fuel]; [discriminate|].
    cbn [separatorMarginal] in H. rewrite Hf in H. cbn [List.length].
    assert (Hc : cachedSeparatorMarginal_ n = None).
    { specialize (Hmiss c (or_introl eq_refl)). unfold cached in Hmiss.
      rewrite Hf in Hmiss. now destruct (cachedSeparatorMarginal_ n). }
    rewrite Hc in H.
    destruct (Nat.eqb_spec R c) as [E|_]; [congruence|].
    unfold lock in H. rewrite Hp in H.
    destruct (find p (tree st)) as [n0|]; [|discriminate].
    destruct (request fuel st p R) as [m1 st1|e st1| |] eqn:Hrec;
      try discriminate.
    assert (H1 : eliminations st1 = (eliminations st + List.length path)%nat).
    { apply (IH fuel m1 st1); [|exact Hrec].
      intros x Hx. apply Hmiss. now right. }
    destruct (find p (tree st1)) as [n1|]; [|discriminate].
    destruct (conditional_ n1); [|discriminate].
    destruct (conditional_ n); [|discriminate].
    destruct (jointBayesNet _ _); [discriminate|].
    injection H as _ <-. cbn [eliminations]. lia.
Qed.

(** ** Paths *)




(** ** A failed elimination is not cached *)


(** ** The invariant behind the invalidation *)

(** X11: When every request was relative to the root of the tree, a clique with
    a populated cache, other than the root, has a parent with a populated
    cache. *)
Theorem populated_parent_populated (T0 : clique) (st : state) (x p : ptr)
  (n : clique) :
  wellFormed T0 ->
  reachable toFactor parents jointBayesNet true T0 st ->
  find x (tree st) = Some n ->
  cachedSeparatorMarginal_ n <> None ->
  x <> this T0 -> parent_ n = Some p ->
  cached (tree st) p = true.
Proof.
  intros Hwf Hreach Hf Hc Hroot Hp.
  destruct (reachable_closed T0 st Hwf Hreach) as [Hcl Hs].
  destruct (wellFormed_shape _ _ (eq_sym Hs) Hwf) as [Hnd Hl].
  apply find_Some in Hf as [Hthis Hin].
  destruct (subtree_parent _ _ Hin) as [->|(q & Hq & Hnq)].
  { exfalso. apply Hroot. rewrite <- Hthis. now apply shape_this. }
  pose proof (Hl q n Hq Hnq) as Hpq. rewrite Hp in Hpq.
  injection Hpq as ->.
  unfold cached. rewrite (find_unique _ q Hnd Hq).
  destruct (cachedSeparatorMarginal_ q) eqn:Hcq; [reflexivity|].
  exfalso. pose proof (closed_subtree _ _ Hcl Hq) as Hclq.
  apply closed_unfold in Hclq as [Habs _].
  apply Hc. apply (Habs Hcq n Hnq). apply subtree_self.
Qed.

(** ** equals *)

(** X12: [equals] compares the conditionals only: invalidating the caches of
    either clique does not change its result. *)
Theorem equals_ignores_caches (c other : clique) (tol : Tol) :
  equals conditional_equals (deleteCachedShortcuts c)
         (deleteCachedShortcuts other) tol
  = equals conditional_equals c other tol.
Proof.
  rewrite !equals_cases.
  rewrite (shape_conditional _ _ (shape_deleteCachedShortcuts c)),
    (shape_conditional _ _ (shape_deleteCachedShortcuts other)).
  reflexivity.
Qed.

(** X13: When the comparison of conditionals is symmetric, so is [equals],
    undefined cases included. *)
Theorem equals_symmetric (c other : clique) (tol : Tol) :
  (forall a b, conditional_equals a b tol = conditional_equals b a tol) ->
  equals conditional_equals c other tol
  = equals conditional_equals other c tol.
Proof.
  intros Hsym. rewrite !equals_cases.
  destruct (conditional_ c), (conditional_ other); try reflexivity.
  now rewrite Hsym.
Qed.

(** ** marginal2 *)

(** X14: [marginal2] keeps no cache of its own, yet after a call that returned
    the same call returns the same joint and leaves the state, the count of
    eliminations included, as it is. *)
Theorem marginal2_idempotent (fuel fuel' : nat) (st st1 : state) (c R : ptr)
  (joint : list Factor) :
  marginal2 toFactor parents jointBayesNet fuel st c R = Ret joint st1 ->
  marginal2 toFactor parents jointBayesNet (S fuel') st1 c R = Ret joint st1.
Proof.
  unfold marginal2. destruct (request fuel st c R) as [m st2| | |] eqn:Hreq;
    try discriminate.
  destruct (find c (tree st2)) as [n|] eqn:Hf; [|discriminate].
  destruct (conditional_ n) as [cond|] eqn:Hcond; [|discriminate].
  intros [= <- <-].
  destruct (request_cached _ _ _ _ _ _ Hreq) as (n' & Hf' & Hc).
  rewrite (request_hit fuel' st2 c R n' m Hf' Hc).
  rewrite Hf in Hf'. injection Hf' as <-. now rewrite Hf, Hcond.
Qed.

(** X15: The joint of the reference itself, from an empty cache, is the factor
    of its own conditional alone, and no elimination is run. *)
Theorem marginal2_of_reference (fuel : nat) (st : state) (R : ptr)
  (r : clique) (cond : Conditional) :
  find R (tree st) = Some r ->
  cachedSeparatorMarginal_ r = None -> conditional_ r = Some cond ->
  exists st',
    marginal2 toFactor parents jointBayesNet (S fuel) st R R
    = Ret [toFactor cond] st'
    /\ eliminations st' = eliminations st.
Proof.
  intros Hf Hc Hcond. unfold marginal2.
  rewrite (request_miss_reference fuel st R r Hf Hc). cbn [tree].
  rewrite find_setCache, Hf. cbn [option_map].
  rewrite setCache_conditional, Hcond. eexists. split; reflexivity.
Qed.


End Theory.

(** * The keys of a shortcut *)

Section FastSets.
Local Open Scope nat_scope.

(** An increasing range without repetition. *)
Local Abbreviation increasing := (StronglySorted Nat.lt).

Lemma increasing_NoDup (l : list nat) : increasing l -> NoDup l.
Proof.
  induction 1 as [|x l _ IH Hall]; constructor; [|exact IH].
  intros Hin. rewrite Forall_forall in Hall. specialize (Hall x Hin). lia.
Qed.

Lemma FastSet_insert_In (k y : nat) (s : list nat) :
  In y (FastSet_insert k s) <-> y = k \/ In y s.
Proof.
  induction s as [|x s IH]; cbn [FastSet_insert In];
    [intuition congruence|].
  destruct (Nat.ltb_spec k x); [cbn [In]; intuition congruence|].
  destruct (Nat.ltb_spec x k); cbn [In];
    [rewrite IH; intuition congruence|].
  assert (x = k) by lia. intuition congruence.
Qed.

Lemma FastSet_insert_increasing (k : nat) (s : list nat) :
  increasing s -> increasing (FastSet_insert k s).
Proof.
  induction 1 as [|x s Hs IH Hall]; cbn [FastSet_insert].
  - repeat constructor.
  - destruct (Nat.ltb_spec k x).
    + constructor; [now constructor|]. constructor; [exact H|].
      rewrite Forall_forall in *. intros y Hy. specialize (Hall y Hy). lia.
    + destruct (Nat.ltb_spec x k); [|now constructor].
      constructor; [exact IH|]. rewrite Forall_forall in *.
      intros y Hy. apply FastSet_insert_In in Hy as [->|Hy]; auto.
Qed.

Lemma FastSet_of_range_spec (range : list nat) :
  increasing (FastSet_of_range range)
  /\ forall y, In y (FastSet_of_range range) <-> In y range.
Proof.
  unfold FastSet_of_range.
  assert (H : forall s, increasing s ->
              increasing (fold_left (fun s k => FastSet_insert k s) range s)
              /\ forall y,
                  In y (fold_left (fun s k => FastSet_insert k s) range s)
                  <-> In y s \/ In y range).
  { induction range as [|k range IH]; intros s Hs; cbn [fold_left In].
    - split; [exact Hs|]. intuition.
    - destruct (IH (FastSet_insert k s) (FastSet_insert_increasing k s Hs))
        as [Hinc Hin].
      split; [exact Hinc|]. intros y. rewrite Hin, FastSet_insert_In.
      intuition. }
  destruct (H [] (SSorted_nil _)) as [Hinc Hin].
  split; [exact Hinc|]. intros y. rewrite Hin. cbn [In]. intuition.
Qed.

Lemma set_difference_nil_r (l1 : list nat) : set_difference l1 [] = l1.
Proof. now destruct l1. Qed.

Lemma set_difference_cons (x y : nat) (l1 l2 : list nat) :
  set_difference (x :: l1) (y :: l2)
  = if Nat.ltb x y then x :: set_difference l1 (y :: l2)
    else if Nat.ltb y x then set_difference (x :: l1) l2
    else set_difference l1 l2.
Proof. reflexivity. Qed.

Lemma set_intersection_nil_r (l1 : list nat) : set_intersection l1 [] = [].
Proof. now destruct l1. Qed.

Lemma set_intersection_cons (x y : nat) (l1 l2 : list nat) :
  set_intersection (x :: l1) (y :: l2)
  = if Nat.ltb x y then set_intersection l1 (y :: l2)
    else if Nat.ltb y x then set_intersection (x :: l1) l2
    else x :: set_intersection l1 l2.
Proof. reflexivity. Qed.

Lemma increasing_head (x : nat) (l : list nat) (y : nat) :
  increasing (x :: l) -> In y l -> x < y.
Proof.
  intros H Hy. apply StronglySorted_inv in H as [_ Hall].
  rewrite Forall_forall in Hall. now apply Hall.
Qed.

Lemma increasing_tail (x : nat) (l : list nat) :
  increasing (x :: l) -> increasing l.
Proof. intros H. now apply StronglySorted_inv in H. Qed.

Lemma set_difference_In (l1 l2 : list nat) (z : nat) :
  increasing l1 -> increasing l2 ->
  (In z (set_difference l1 l2) <-> In z l1 /\ ~ In z l2).
Proof.
  revert l2. induction l1 as [|x l1 IH1]; intros l2 H1 H2.
  - cbn. destruct l2; cbn; tauto.
  - induction l2 as [|y l2 IH2].
    + rewrite set_difference_nil_r. cbn [In]. tauto.
    + rewrite set_difference_cons.
      pose proof (increasing_tail _ _ H1) as H1'.
      pose proof (increasing_tail _ _ H2) as H2'.
      destruct (Nat.ltb_spec x y) as [Hxy|Hxy].
      * cbn [In]. rewrite (IH1 (y :: l2) H1' H2). cbn [In]. split.
        -- intros [<-|[Hz Hn]]; [|tauto]. split; [now left|].
           intros [->|Hin]; [lia|].
           pose proof (increasing_head _ _ _ H2 Hin). lia.
        -- tauto.
      * destruct (Nat.ltb_spec y x) as [Hyx|Hyx].
        -- rewrite (IH2 H2'). cbn [In]. split; [|tauto].
           intros [Hz Hn]. split; [exact Hz|]. intros [->|Hin]; [|tauto].
           destruct Hz as [->|Hz]; [lia|].
           pose proof (increasing_head _ _ _ H1 Hz). lia.
        -- assert (x = y) by lia. subst y.
           rewrite (IH1 l2 H1' H2'). cbn [In]. split.
           ++ intros [Hz Hn]. split; [now right|]. intros [->|Hin]; [|tauto].
              pose proof (increasing_head _ _ _ H1 Hz). lia.
           ++ intros [[->|Hz] Hn]; [tauto|]. tauto.
Qed.

Lemma set_intersection_In (l1 l2 : list nat) (z : nat) :
  increasing l1 -> increasing l2 ->
  (In z (set_intersection l1 l2) <-> In z l1 /\ In z l2).
Proof.
  revert l2. induction l1 as [|x l1 IH1]; intros l2 H1 H2.
  - cbn. destruct l2; cbn; tauto.
  - induction l2 as [|y l2 IH2].
    + rewrite set_intersection_nil_r. cbn [In]. tauto.
    + rewrite set_intersection_cons.
      pose proof (increasing_tail _ _ H1) as H1'.
      pose proof (increasing_tail _ _ H2) as H2'.
      destruct (Nat.ltb_spec x y) as [Hxy|Hxy].
      * rewrite (IH1 (y :: l2) H1' H2). cbn [In]. split; [tauto|].
        intros [[<-|Hz] Hin]; [|tauto]. exfalso.
        destruct Hin as [->|Hin]; [lia|].
        pose proof (increasing_head _ _ _ H2 Hin). lia.
      * destruct (Nat.ltb_spec y x) as [Hyx|Hyx].
        -- rewrite (IH2 H2'). cbn [In]. split; [tauto|].
           intros [Hz [<-|Hin]]; [|tauto]. exfalso.
           destruct Hz as [->|Hz]; [lia|].
           pose proof (increasing_head _ _ _ H1 Hz). lia.
        -- assert (x = y) by lia. subst y. cbn [In].
           rewrite (IH1 l2 H1' H2'). split; [tauto|].
           intros [[Hx|Hz] [Hy|Hin]]; tauto.
Qed.

(** Both algorithms copy keys of the first range in its order. *)
Lemma set_difference_above (a : nat) (l1 l2 : list nat) :
  Forall (Nat.lt a) l1 -> Forall (Nat.lt a) (set_difference l1 l2).
Proof.
  revert l2. induction l1 as [|x l1 IH1]; intros l2 H.
  - destruct l2; constructor.
  - induction l2 as [|y l2 IH2]; [now rewrite set_difference_nil_r|].
    rewrite set_difference_cons. inversion H; subst.
    destruct (Nat.ltb x y); [constructor; auto|].
    destruct (Nat.ltb y x); auto.
Qed.

Lemma set_difference_increasing (l1 l2 : list nat) :
  increasing l1 -> increasing (set_difference l1 l2).
Proof.
  revert l2. induction l1 as [|x l1 IH1]; intros l2 H.
  - destruct l2; constructor.
  - induction l2 as [|y l2 IH2]; [now rewrite set_difference_nil_r|].
    rewrite set_difference_cons. apply StronglySorted_inv in H as H'.
    destruct H' as [H1' Hall].
    destruct (Nat.ltb x y).
    + constructor; [now apply IH1|]. now apply set_difference_above.
    + destruct (Nat.ltb y x); [exact IH2|now apply IH1].
Qed.

Lemma set_intersection_above (a : nat) (l1 l2 : list nat) :
  Forall (Nat.lt a) l1 -> Forall (Nat.lt a) (set_intersection l1 l2).
Proof.
  revert l2. induction l1 as [|x l1 IH1]; intros l2 H.
  - destruct l2; constructor.
  - induction l2 as [|y l2 IH2];
      [rewrite set_intersection_nil_r; constructor|].
    rewrite set_intersection_cons. inversion H; subst.
    destruct (Nat.ltb x y); [auto|].
    destruct (Nat.ltb y x); [auto|constructor; auto].
Qed.

Lemma set_intersection_increasing (l1 l2 : list nat) :
  increasing l1 -> increasing (set_intersection l1 l2).
Proof.
  revert l2. induction l1 as [|x l1 IH1]; intros l2 H.
  - destruct l2; constructor.
  - induction l2 as [|y l2 IH2];
      [rewrite set_intersection_nil_r; constructor|].
    rewrite set_intersection_cons. apply StronglySorted_inv in H as H'.
    destruct H' as [H1' Hall].
    destruct (Nat.ltb x y); [now apply IH1|].
    destruct (Nat.ltb y x); [exact IH2|].
    constructor; [now apply IH1|]. now apply set_intersection_above.
Qed.

(** Intersecting an increasing range with a range that holds all its keys
    gives the range back. *)
Lemma set_intersection_subset (l1 l2 : list nat) :
  increasing l1 -> increasing l2 ->
  (forall z, In z l1 -> In z l2) -> set_intersection l1 l2 = l1.
Proof.
  revert l2. induction l1 as [|x l1 IH1]; intros l2 H1 H2 Hsub.
  - destruct l2; reflexivity.
  - induction l2 as [|y l2 IH2].
    + exfalso. apply (Hsub x). now left.
    + rewrite set_intersection_cons.
      pose proof (increasing_tail _ _ H1) as H1'.
      pose proof (increasing_tail _ _ H2) as H2'.
      destruct (Nat.ltb_spec x y) as [Hxy|Hxy].
      * exfalso. destruct (Hsub x (or_introl eq_refl)) as [->|Hin]; [lia|].
        pose proof (increasing_head _ _ _ H2 Hin). lia.
      * destruct (Nat.ltb_spec y x) as [Hyx|Hyx].
        -- apply IH2; [exact H2'|]. intros z Hz.
           destruct (Hsub z Hz) as [<-|Hin]; [|exact Hin]. exfalso.
           destruct Hz as [->|Hz]; [lia|].
           pose proof (increasing_head _ _ _ H1 Hz). lia.
        -- assert (x = y) by lia. subst y. f_equal.
           apply IH1; auto. intros z Hz.
           destruct (Hsub z (or_intror Hz)) as [<-|Hin]; [|exact Hin].
           pose proof (increasing_head _ _ _ H1 Hz). lia.
Qed.

Context {Factor Conditional : Type}.
Variable parents : Conditional -> list nat.
Variable keys : Conditional -> list nat.
Variable graphKeys : list Factor -> list nat.

(** X17: [separator_setminus_B] gives, in increasing order and without
    repetition, exactly the separator keys of the clique that are not keys
    of [B]. *)
Theorem separator_setminus_B_spec (c B : Clique Factor Conditional)
  (p_F_S condB : Conditional) :
  conditional_ c = Some p_F_S -> conditional_ B = Some condB ->
  exists S_setminus_B,
    separator_setminus_B parents keys c B = Value S_setminus_B
    /\ StronglySorted Nat.lt S_setminus_B
    /\ forall k, In k S_setminus_B
                 <-> In k (parents p_F_S) /\ ~ In k (keys condB).
Proof.
  intros Hc HB. unfold separator_setminus_B. rewrite Hc, HB.
  destruct (FastSet_of_range_spec (parents p_F_S)) as [Hs1 Hin1].
  destruct (FastSet_of_range_spec (keys condB)) as [Hs2 Hin2].
  eexists. split; [reflexivity|]. split.
  - now apply set_difference_increasing.
  - intros k. rewrite set_difference_In by assumption.
    now rewrite Hin1, Hin2.
Qed.

Lemma setminus_contained (c B : Clique Factor Conditional)
  (p_F_S condB : Conditional) :
  conditional_ c = Some p_F_S -> conditional_ B = Some condB ->
  (forall k, In k (parents p_F_S) -> In k (keys condB)) ->
  separator_setminus_B parents keys c B = Value [].
Proof.
  intros Hc HB Hsub. unfold separator_setminus_B. rewrite Hc, HB.
  destruct (FastSet_of_range_spec (parents p_F_S)) as [Hs1 Hin1].
  destruct (FastSet_of_range_spec (keys condB)) as [Hs2 Hin2].
  f_equal.
  destruct (set_difference _ _) as [|k l] eqn:E; [reflexivity|].
  exfalso.
  assert (Hk : In k (set_difference (FastSet_of_range (parents p_F_S))
                                    (FastSet_of_range (keys condB))))
    by (rewrite E; now left).
  apply set_difference_In in Hk as [Hk Hn]; auto.
  apply Hn, Hin2, Hsub, Hin1, Hk.
Qed.

(** X18: When every separator key of the clique is a key of [B], nothing is
    left. *)
Theorem separator_setminus_B_empty (c B : Clique Factor Conditional)
  (p_F_S condB : Conditional) :
  conditional_ c = Some p_F_S -> conditional_ B = Some condB ->
  (forall k, In k (parents p_F_S) -> In k (keys condB)) ->
  separator_setminus_B parents keys c B = Value [].
Proof. apply setminus_contained. Qed.

(** X19: [shortcut_indices] keeps, without repetition, exactly the keys of the
    factor graph that are separator keys of the clique or keys of [B]. *)
Theorem shortcut_indices_spec (c B : Clique Factor Conditional)
  (p_F_S condB : Conditional) (p_Cp_B : list Factor) :
  conditional_ c = Some p_F_S -> conditional_ B = Some condB ->
  StronglySorted Nat.lt (graphKeys p_Cp_B) ->
  exists keep,
    shortcut_indices parents keys graphKeys c B p_Cp_B = Value keep
    /\ NoDup keep
    /\ forall k, In k keep
                 <-> In k (graphKeys p_Cp_B)
                     /\ (In k (parents p_F_S) \/ In k (keys condB)).
Proof.
  intros Hc HB Hall. unfold shortcut_indices, separator_setminus_B.
  rewrite Hc, HB.
  destruct (FastSet_of_range_spec (parents p_F_S)) as [Hs1 Hin1].
  destruct (FastSet_of_range_spec (keys condB)) as [Hs2 Hin2].
  pose proof (set_difference_increasing _ (FastSet_of_range (keys condB)) Hs1)
    as Hsd.
  eexists. split; [reflexivity|]. split.
  - apply NoDup_app.
    + now apply increasing_NoDup, set_intersection_increasing.
    + now apply increasing_NoDup, set_intersection_increasing.
    + intros k Hk1 Hk2.
      apply set_intersection_In in Hk1 as [Hk1 _]; auto.
      apply set_intersection_In in Hk2 as [Hk2 _]; auto.
      apply set_difference_In in Hk1 as [_ Hn]; auto.
  - intros k. rewrite in_app_iff, !set_intersection_In by assumption.
    rewrite set_difference_In by assumption. rewrite Hin1, Hin2.
    destruct (in_dec Nat.eq_dec k (keys condB)); tauto.
Qed.

(** X20: When the factor graph has every key of [S\B], [shortcut_indices] puts
    the keys of [S\B] first: they are the frontal keys that the solver is
    asked for. *)
Theorem shortcut_indices_frontals_first (c B : Clique Factor Conditional)
  (p_Cp_B : list Factor) (S_setminus_B : list nat) :
  separator_setminus_B parents keys c B = Value S_setminus_B ->
  StronglySorted Nat.lt (graphKeys p_Cp_B) ->
  (forall k, In k S_setminus_B -> In k (graphKeys p_Cp_B)) ->
  exists keep,
    shortcut_indices parents keys graphKeys c B p_Cp_B = Value keep
    /\ firstn (List.length S_setminus_B) keep = S_setminus_B.
Proof.
  intros HS Hall Hsub. unfold shortcut_indices. rewrite HS.
  unfold separator_setminus_B in HS.
  destruct (conditional_ c) as [p_F_S|]; [|discriminate].
  destruct (conditional_ B) as [condB|]; [|discriminate].
  injection HS as HS.
  destruct (FastSet_of_range_spec (parents p_F_S)) as [Hs1 _].
  assert (Hinc : StronglySorted Nat.lt S_setminus_B)
    by (rewrite <- HS; now apply set_difference_increasing).
  eexists. split; [reflexivity|].
  rewrite (set_intersection_subset _ _ Hinc Hall Hsub).
  rewrite firstn_app, Nat.sub_diag, firstn_all. cbn [firstn].
  apply app_nil_r.
Qed.

(** ** shortcut *)

Context {Exn : Type}.
Variable toFactor : Conditional -> Factor.
Variable fromBayesNet : list Conditional -> list Factor.
Variable conditionalBayesNet :
  list Factor -> list nat -> nat -> Exn + list Conditional.

Local Abbreviation shortcut' :=
  (shortcut parents keys graphKeys toFactor fromBayesNet conditionalBayesNet).

(** X21: [shortcut] stops at [B], and at any clique whose separator keys are all
    keys of [B]: it returns the empty Bayes net without looking at the
    parent and without eliminating. *)
Theorem shortcut_stops (fuel : nat) (st : State Factor Conditional)
  (self B : ptr) (c b : Clique Factor Conditional)
  (p_F_S condB : Conditional) :
  find self (tree st) = Some c -> find B (tree st) = Some b ->
  conditional_ c = Some p_F_S -> conditional_ b = Some condB ->
  B = self \/ (forall k, In k (parents p_F_S) -> In k (keys condB)) ->
  shortcut' (S fuel) st self B = Ret [] st.
Proof.
  intros Hc Hb Hcond HcondB Hstop. cbn [shortcut]. rewrite Hc, Hb.
  destruct Hstop as [->|Hsub].
  - unfold separator_setminus_B. rewrite Hcond, HcondB.
    now rewrite Nat.eqb_refl.
  - rewrite (setminus_contained c b p_F_S condB Hcond HcondB Hsub).
    cbn [isNil negb]. now rewrite andb_false_r.
Qed.

(** The result and the cost of [shortcut] do not depend on the count of
    eliminations it starts from, and the tree is left as it is. *)
Lemma shortcut_shift (fuel : nat) (T : Clique Factor Conditional)
  (e : nat) (self B : ptr) :
  match shortcut' fuel (mkState T e) self B with
  | Ret net st' =>
      tree st' = T /\ e <= eliminations st'
      /\ forall e', shortcut' fuel (mkState T e') self B
                    = Ret net (mkState T (e' + (eliminations st' - e)))
  | Throw x st' =>
      tree st' = T /\ e <= eliminations st'
      /\ forall e', shortcut' fuel (mkState T e') self B
                    = Throw x (mkState T (e' + (eliminations st' - e)))
  | Undefined u =>
      forall e', shortcut' fuel (mkState T e') self B = Undefined u
  | OutOfFuel =>
      forall e', shortcut' fuel (mkState T e') self B = OutOfFuel
  end.
Proof.
  revert e self. induction fuel as [|fuel IH]; intros e self;
    [intros e'; reflexivity|].
  cbn [shortcut tree eliminations].
  destruct (find self T) as [c|]; [|intros e'; reflexivity].
  destruct (find B T) as [b|]; [|intros e'; reflexivity].
  destruct (separator_setminus_B parents keys c b) as [S_setminus_B|u];
    [|intros e'; reflexivity].
  destruct (negb (Nat.eqb B self) && negb (isNil S_setminus_B)).
  2:{ cbn [tree eliminations]. split; [reflexivity|]. split; [lia|].
      intros e'. do 2 f_equal. lia. }
  destruct (lock T (parent_ c)) as [p|]; [|intros e'; reflexivity].
  specialize (IH e p).
  destruct (shortcut' fuel (mkState T e) p B) as [net st1|x st1|u|].
  - destruct IH as (Ht & Hle & IH). rewrite Ht.
    destruct (find p T) as [n1|] eqn:Hfp.
    2:{ intros e'. rewrite IH. cbn [tree]. now rewrite Hfp. }
    destruct (conditional_ n1) as [pc|] eqn:Hpc.
    2:{ intros e'. rewrite IH. cbn [tree]. now rewrite Hfp, Hpc. }
    destruct (shortcut_indices parents keys graphKeys c b _) as [keep|u]
      eqn:Hkeep.
    2:{ intros e'. rewrite IH. cbn [tree]. now rewrite Hfp, Hpc, Hkeep. }
    destruct (conditionalBayesNet _ _ _) eqn:Hsolve;
      cbn [tree eliminations]; (split; [reflexivity|]); (split; [lia|]);
      intros e'; rewrite IH; cbn [tree eliminations];
      rewrite Hfp, Hpc, Hkeep, Hsolve; do 2 f_equal; lia.
  - destruct IH as (Ht & Hle & IH). split; [exact Ht|]. split; [exact Hle|].
    intros e'. now rewrite IH.
  - intros e'. now rewrite IH.
  - intros e'. now rewrite IH.
Qed.

(** X22: [shortcut] caches nothing: it leaves the tree as it is, and the same
    request made again returns the same Bayes net after as many
    eliminations as the first time. *)
Theorem shortcut_not_memoized (fuel : nat) (st st1 : State Factor Conditional)
  (self B : ptr) (net : list Conditional) :
  shortcut' fuel st self B = Ret net st1 ->
  tree st1 = tree st
  /\ eliminations st <= eliminations st1
  /\ shortcut' fuel st1 self B
     = Ret net (mkState (tree st1)
                        (eliminations st1
                         + (eliminations st1 - eliminations st))).
Proof.
  intros H. pose proof (shortcut_shift fuel (tree st) (eliminations st)
                          self B) as Hs.
  destruct st as [T e]. cbn [tree eliminations] in *. rewrite H in Hs.
  destruct Hs as (Ht & Hle & Hs). split; [exact Ht|]. split; [exact Hle|].
  destruct st1 as [T1 e1]. cbn [tree eliminations] in *. subst T1.
  apply Hs.
Qed.

End FastSets.

(** * TransformCalProjectionFactor *)

Section ProjectionFactorTheory.

Context {Pose3 Point3 Point2 Calibration Matrix Vector Scalar : Type}.
Context {SharedNoiseModel CheiralityException : Type}.
Variable compose : Pose3 -> Pose3 -> Pose3 * Matrix * Matrix.
Variable project :
  Pose3 -> Calibration -> Point3 ->
  CheiralityException + (Point2 * Matrix * Matrix * Matrix).
Variable minus : Point2 -> Point2 -> Point2.
Variable vector : Point2 -> Vector.
Variable times : Matrix -> Matrix -> Matrix.
Variable zeros : nat -> nat -> Matrix.
Variable ones : nat -> Vector.
Variable scaled : Vector -> Scalar -> Vector.
Variable two : Scalar.
Variable fx : Calibration -> Scalar.
Variable calibrationDim : nat.
Variable what : CheiralityException -> string.
Variable DefaultKeyFormatter : nat -> string.

Local Abbreviation factor := (ProjectionFactor Point2 SharedNoiseModel).
Local Abbreviation evaluate :=
  (evaluateError (SharedNoiseModel := SharedNoiseModel)
                 compose project minus vector times zeros ones scaled two fx
                 calibrationDim what DefaultKeyFormatter).

(** The pose handed to the camera. *)
Local Abbreviation cameraPose pose transform :=
  (fst (fst (compose pose transform))).

Lemma evaluateError_not_rethrown (f : factor) (pose transform : Pose3)
  (point : Point3) (K : Calibration) (H1 H2 H3 H4 : bool) :
  throwCheirality_ f = false ->
  forall e h1 h2 h3 h4 out,
    evaluate f pose transform point K H1 H2 H3 H4
    <> Rethrown e h1 h2 h3 h4 out.
Proof.
  intros Hflag e h1 h2 h3 h4 out. unfold evaluateError. rewrite Hflag.
  destruct (compose pose transform) as [[cp H0] H02].
  destruct (project cp K point) as [x|[[[pt D1] D3] D4]];
    destruct (H1 || H2 || H3 || H4); try destruct (H1 && H2); discriminate.
Qed.

(** X23: With [throwCheirality_] false, and so for every factor made by the
    constructor without flags, [evaluateError] never throws a
    [CheiralityException], whichever Jacobians are asked for. *)
Theorem evaluateError_never_throws (pose transform : Pose3)
  (point : Point3) (K : Calibration) (H1 H2 H3 H4 : bool) :
  (forall f : factor,
      throwCheirality_ f = false ->
      forall e h1 h2 h3 h4 out,
        evaluate f pose transform point K H1 H2 H3 H4
        <> Rethrown e h1 h2 h3 h4 out)
  /\ (forall measured model poseKey transformKey pointKey calibKey
             e h1 h2 h3 h4 out,
        evaluate (construct measured model poseKey transformKey pointKey
                            calibKey)
                 pose transform point K H1 H2 H3 H4
        <> Rethrown e h1 h2 h3 h4 out).
Proof.
  split.
  - intros f. apply evaluateError_not_rethrown.
  - intros. now apply evaluateError_not_rethrown.
Qed.

(** X24: When the point is behind the camera, every Jacobian that was passed is
    set to zeros of its size and the others are not touched; the message is
    printed exactly when [verboseCheirality_] is set; then the exception is
    thrown again when [throwCheirality_] is set, and otherwise the error
    returned is [ones(2) * 2.0 * K.fx()].  An empty optional is never
    dereferenced on this path. *)
Theorem evaluateError_behind_camera (f : factor) (pose transform : Pose3)
  (point : Point3) (K : Calibration) (H1 H2 H3 H4 : bool)
  (e : CheiralityException) :
  project (cameraPose pose transform) K point = inl e ->
  let output :=
    if verboseCheirality_ f then
      (what e ++ ": Landmark " ++ DefaultKeyFormatter (key2 f)
       ++ " moved behind camera " ++ DefaultKeyFormatter (key1 f)
       ++ endl)%string
    else EmptyString in
  evaluate f pose transform point K H1 H2 H3 H4
  = if throwCheirality_ f then
      Rethrown e (written H1 (zeros 2 6)) (written H2 (zeros 2 6))
               (written H3 (zeros 2 3)) (written H4 (zeros 2 calibrationDim))
               output
    else
      Returned (scaled (scaled (ones 2) two) (fx K))
               (written H1 (zeros 2 6)) (written H2 (zeros 2 6))
               (written H3 (zeros 2 3)) (written H4 (zeros 2 calibrationDim))
               output.
Proof.
  intros Hp. unfold evaluateError.
  destruct (compose pose transform) as [[cp H0] H02]. cbn [fst] in Hp.
  rewrite Hp. now destruct (H1 || H2 || H3 || H4).
Qed.

(** X25: When the point projects, [evaluateError] dereferences an empty optional
    exactly when some Jacobian is passed but not both [H1] and [H2]. *)
Theorem evaluateError_empty_optional (f : factor) (pose transform : Pose3)
  (point : Point3) (K : Calibration) (H1 H2 H3 H4 : bool) projected :
  project (cameraPose pose transform) K point = inr projected ->
  (evaluate f pose transform point K H1 H2 H3 H4 = EmptyOptional
   <-> (H1 || H2 || H3 || H4 = true /\ H1 && H2 = false)).
Proof.
  intros Hp. unfold evaluateError.
  destruct (compose pose transform) as [[cp H0] H02]. cbn [fst] in Hp.
  rewrite Hp. destruct projected as [[[pt D1] D3] D4].
  destruct H1, H2, H3, H4; cbn; split;
    (discriminate || tauto || (intros [? ?]; discriminate) || auto).
Qed.

(** X26: The error that [evaluateError] returns does not depend on the Jacobians
    that are asked for. *)
Theorem evaluateError_same_error (f : factor) (pose transform : Pose3)
  (point : Point3) (K : Calibration) (H1 H2 H3 H4 H1' H2' H3' H4' : bool)
  v h1 h2 h3 h4 out v' h1' h2' h3' h4' out' :
  evaluate f pose transform point K H1 H2 H3 H4
  = Returned v h1 h2 h3 h4 out ->
  evaluate f pose transform point K H1' H2' H3' H4'
  = Returned v' h1' h2' h3' h4' out' ->
  v = v' /\ out = out'.
Proof.
  unfold evaluateError.
  destruct (compose pose transform) as [[cp H0] H02].
  destruct (project cp K point) as [x|[[[pt D1] D3] D4]];
    destruct (throwCheirality_ f);
    destruct (H1 || H2 || H3 || H4); try destruct (H1 && H2);
    destruct (H1' || H2' || H3' || H4'); try destruct (H1' && H2');
    try discriminate; intros [= <- _ _ _ _ <-] [= <- _ _ _ _ <-];
    split; reflexivity.
Qed.

End ProjectionFactorTheory.

(** * The statements on the concrete tree *)

Import Example.
Local Open Scope nat_scope.

Lemma root_wellFormed : wellFormed root.
Proof.
  split.
  - unfold addresses. cbn. repeat constructor; cbn; intuition discriminate.
  - intros n child Hn Hc. cbn in Hn.
    repeat (destruct Hn as [<-|Hn]; [cbn in Hc; intuition (subst; reflexivity)|]).
    destruct Hn.
Defined.

Lemma root_operational : operational root.
Proof.
  intros n Hn. cbn in Hn.
  repeat (destruct Hn as [<-|Hn]; [discriminate|]). destruct Hn.
Defined.

Lemma jointBayesNet_total (p_Cp : list Factor) (indicesS : list Key) :
  exists m, jointBayesNet p_Cp indicesS = inr m.
Proof. eexists. reflexivity. Defined.

Lemma path_D_root : pathTo root 0 4 [4; 3; 2; 1].
Proof.
  apply path_step with cliqueD 3; [discriminate|reflexivity|reflexivity|].
  apply path_step with cliqueC 2; [discriminate|reflexivity|reflexivity|].
  apply path_step with cliqueB 1; [discriminate|reflexivity|reflexivity|].
  apply path_step with cliqueA 0; [discriminate|reflexivity|reflexivity|].
  now apply path_end with root.
Defined.

Lemma separatorMarginal_populates_path_witness :
  pathTo (tree fresh) 0 4 [4; 3; 2; 1]
  /\ upwardClosed (tree fresh) [4; 3; 2; 1]
  /\ operational (tree fresh)
  /\ (List.length [4; 3; 2; 1] < 10)
  /\ exists m st',
      request 10 fresh 4 0 = Ret m st'
      /\ (exists n, find 4 (tree st') = Some n
                    /\ cachedSeparatorMarginal_ n = Some m)
      /\ (forall x, In x [4; 3; 2; 1] -> cached (tree st') x = true).
Proof.
  assert (Hup : upwardClosed (tree fresh) [4; 3; 2; 1])
    by (cbn; intuition discriminate).
  assert (Hlen : List.length [4; 3; 2; 1] < 10) by (cbn; lia).
  split; [exact path_D_root|]. split; [exact Hup|].
  split; [exact root_operational|]. split; [exact Hlen|].
  exact (separatorMarginal_populates_path toFactor parents jointBayesNet
           fresh 4 0 [4; 3; 2; 1] 10 path_D_root Hup root_operational
           jointBayesNet_total Hlen).
Defined.

(** The state [afterCB] is reached by one request relative to an ancestor. *)
Lemma afterCB_reachable :
  reachable toFactor parents jointBayesNet false root afterCB.
Proof.
  apply reach_request with (st := mkState (shape root) 0) (fuel := 10)
                           (c := 3) (R := 2) (m := [[2]]).
  - apply reach_init.
  - discriminate.
  - exists [3].
    apply path_step with cliqueC 2; [discriminate|reflexivity|reflexivity|].
    now apply path_end with cliqueB.
  - reflexivity.
Defined.

Lemma afterBA_reachable :
  reachable toFactor parents jointBayesNet false root afterBA.
Proof.
  apply reach_request with (st := mkState (shape root) 0) (fuel := 10)
                           (c := 2) (R := 1) (m := [[1]]).
  - apply reach_init.
  - discriminate.
  - exists [2].
    apply path_step with cliqueB 1; [discriminate|reflexivity|reflexivity|].
    now apply path_end with cliqueA.
  - reflexivity.
Defined.

Lemma afterDroot_reachable :
  reachable toFactor parents jointBayesNet true root afterDroot.
Proof.
  apply reach_request with (st := mkState (shape root) 0) (fuel := 10)
                           (c := 4) (R := 0) (m := [[3]]).
  - apply reach_init.
  - reflexivity.
  - exists [4; 3; 2; 1]. exact path_D_root.
  - reflexivity.
Defined.

(** C1, the counterexample: after C was requested relative to its ancestor
    B, a request for D relative to the root starts from a cache miss at D,
    returns, and leaves the cache of A, on the path from D to the root,
    empty. *)
Lemma separatorMarginal_path_not_populated :
  reachable toFactor parents jointBayesNet false root afterCB
  /\ pathTo (tree afterCB) 0 4 [4; 3; 2; 1]
  /\ cached (tree afterCB) 4 = false
  /\ request 10 afterCB 4 0 = Ret [[3]] afterCBthenDroot
  /\ In 1 [4; 3; 2; 1]
  /\ cached (tree afterCBthenDroot) 1 = false.
Proof.
  split; [exact afterCB_reachable|]. split.
  - eapply path_step; [discriminate|reflexivity|reflexivity|].
    eapply path_step; [discriminate|reflexivity|reflexivity|].
    eapply path_step; [discriminate|reflexivity|reflexivity|].
    eapply path_step; [discriminate|reflexivity|reflexivity|].
    eapply path_end. reflexivity.
  - split; [reflexivity|]. split; [reflexivity|].
    split; [cbn; tauto|reflexivity].
Qed.

Lemma separatorMarginal_of_reference_witness :
  find 0 (tree fresh) = Some root
  /\ exists m st',
      request 1 fresh 0 0 = Ret m st'
      /\ eliminations st' = eliminations fresh
      /\ (cachedSeparatorMarginal_ root = None ->
          m = [] /\ tree st' = setCache 0 (Some []) (tree fresh))
      /\ (forall v, cachedSeparatorMarginal_ root = Some v ->
                    m = v /\ st' = fresh).
Proof.
  split; [reflexivity|].
  exact (separatorMarginal_of_reference toFactor parents jointBayesNet
           0 fresh 0 root eq_refl).
Defined.

(** C2, the counterexample: after B was requested relative to A, the
    request for [(B, B)] returns the marginal in the cache of B, which is
    not the empty collection. *)
Lemma separatorMarginal_of_reference_not_empty :
  reachable toFactor parents jointBayesNet false root afterBA
  /\ request 10 afterBA 2 2 = Ret [[1]] afterBA
  /\ [[1]] <> @nil Factor.
Proof.
  split; [exact afterBA_reachable|]. split; [reflexivity|discriminate].
Qed.

Lemma separatorMarginal_idempotent_witness :
  request 10 fresh 4 0 = Ret [[3]] afterDroot
  /\ request 1 afterDroot 4 0 = Ret [[3]] afterDroot.
Proof.
  assert (H : request 10 fresh 4 0 = Ret [[3]] afterDroot) by reflexivity.
  split; [exact H|].
  exact (proj2 (separatorMarginal_idempotent toFactor parents jointBayesNet
                  fresh 4 0) 10 0 [[3]] afterDroot H).
Defined.

Lemma deleteCachedShortcuts_invalidates_witness :
  wellFormed root
  /\ reachable toFactor parents jointBayesNet true root afterDroot
  /\ find 1 (tree afterDroot) = Some populatedA
  /\ (forall d, In d (descendants (deleteCachedShortcuts populatedA)) ->
                cachedSeparatorMarginal_ d = None)
  /\ cachedSeparatorMarginal_ cliqueE = None
  /\ deleteCachedShortcuts cliqueE = cliqueE.
Proof.
  assert (Hf : find 1 (tree afterDroot) = Some populatedA) by reflexivity.
  split; [exact root_wellFormed|]. split; [exact afterDroot_reachable|].
  split; [exact Hf|]. split.
  - exact (proj2 (proj2 (proj2
             (deleteCachedShortcuts_invalidates toFactor parents
                jointBayesNet populatedA)))
             root afterDroot 1 root_wellFormed afterDroot_reachable Hf).
  - split; [reflexivity|].
    exact (proj1 (deleteCachedShortcuts_invalidates toFactor parents
                    jointBayesNet cliqueE) eq_refl).
Defined.

(** C4, the counterexample: after B was requested relative to A, the caches
    of A and B are populated and the cache of the root is empty;
    [deleteCachedShortcuts] on the root changes nothing, and A, below the
    root, keeps its populated cache. *)
Lemma deleteCachedShortcuts_leaves_descendant :
  reachable toFactor parents jointBayesNet false root afterBA
  /\ (exists d, In d (descendants (tree afterBA)) /\ this d = 1
                /\ cachedSeparatorMarginal_ d = Some [])
  /\ deleteCachedShortcuts (tree afterBA) = tree afterBA
  /\ (exists d, In d (descendants (deleteCachedShortcuts (tree afterBA)))
                /\ this d = 1 /\ cachedSeparatorMarginal_ d = Some []).
Proof.
  split; [exact afterBA_reachable|].
  split; [|split; [reflexivity|]]; eexists; (split; [left; reflexivity|]);
    split; reflexivity.
Qed.

Lemma numCachedSeparatorMarginals_cases_witness :
  cachedSeparatorMarginal_ (tree afterDroot) <> None
  /\ fitsInMemory (tree afterDroot)
  /\ numCachedSeparatorMarginals (tree afterDroot)
     = (1 + sum_over numCachedSeparatorMarginals
                     (children (tree afterDroot)))%Z
  /\ cachedSeparatorMarginal_ cliqueE = None
  /\ numCachedSeparatorMarginals cliqueE = 0%Z.
Proof.
  assert (H1 : cachedSeparatorMarginal_ (tree afterDroot) <> None)
    by discriminate.
  assert (H2 : fitsInMemory (tree afterDroot)) by reflexivity.
  split; [exact H1|]. split; [exact H2|]. split.
  - exact (proj2 (numCachedSeparatorMarginals_cases (tree afterDroot)) H1 H2).
  - split; [reflexivity|].
    exact (proj1 (proj1 (numCachedSeparatorMarginals_cases cliqueE) eq_refl)).
Defined.

Lemma separatorMarginal_without_parent_witness :
  0 <> 1 /\ find 0 (tree fresh) = Some root
  /\ lock (tree fresh) (parent_ root) = None
  /\ (forall v, cachedSeparatorMarginal_ root = Some v ->
                request 1 fresh 0 1 = Ret v fresh)
  /\ (cachedSeparatorMarginal_ root = None ->
      request 1 fresh 0 1 = Undefined NullParent).
Proof.
  assert (H : 0 <> 1) by discriminate.
  split; [exact H|]. split; [reflexivity|]. split; [reflexivity|].
  exact (separatorMarginal_without_parent toFactor parents jointBayesNet
           0 fresh 0 1 root H eq_refl eq_refl).
Defined.

(** C6, the counterexample: the root is not the reference A and has no
    parent; with an empty cache the request calls through the null pointer,
    with a populated cache it returns what the cache holds; in neither case
    is an error raised. *)
Lemma separatorMarginal_without_parent_no_error :
  0 <> 1
  /\ lock (tree fresh) (parent_ root) = None
  /\ request 10 fresh 0 1 = Undefined NullParent
  /\ find 0 (tree populatedRoot)
     = Some (mkClique 0 (Some ([0], [])) None [cliqueA; cliqueE] (Some [[9]]))
  /\ request 10 populatedRoot 0 1 = Ret [[9]] populatedRoot.
Proof. repeat split; (discriminate || reflexivity). Qed.

(** C7, at the failing input: [equals] between a clique without a
    conditional and a clique with one dereferences the null conditional, in
    either order, where two such cliques are expected to compare as
    different ([false]). *)
Lemma equals_one_null_conditional :
  equals conditional_equals placeholder root 0 = Undef NullConditional
  /\ equals conditional_equals root placeholder 0 = Undef NullConditional
  /\ equals conditional_equals placeholder placeholder 0 = Value true
  /\ equals conditional_equals root root 0 = Value true.
Proof. repeat split. Qed.

Lemma treeSize_children_witness :
  fitsInMemory root
  /\ treeSize root = (1 + sum_over treeSize (children root))%Z
  /\ (children root = [] -> treeSize root = 1%Z).
Proof.
  assert (H : fitsInMemory root) by reflexivity.
  split; [exact H|]. exact (treeSize_children root H).
Defined.

Lemma operations_frame_witness :
  find 3 (tree afterDroot) <> None
  /\ (forall c, In c (subtree (tree afterDroot)) -> this c = 3 ->
                ~ In 1 (addresses c))
  /\ option_map cachedSeparatorMarginal_
                (find 1 (call_deleteCachedShortcuts 3 (tree afterDroot)))
     = option_map cachedSeparatorMarginal_ (find 1 (tree afterDroot))
  /\ shape (call_deleteCachedShortcuts 3 (tree afterDroot))
     = shape (tree afterDroot).
Proof.
  assert (H : forall c, In c (subtree (tree afterDroot)) -> this c = 3 ->
                        ~ In 1 (addresses c)).
  { intros c Hc. cbn in Hc.
    repeat (destruct Hc as [<-|Hc]; [cbn; intuition discriminate|]).
    destruct Hc. }
  split; [discriminate|]. split; [exact H|]. split.
  - exact (proj2 (proj2 (proj2 (proj2
             (operations_frame 3 (tree afterDroot))))) 1 H).
  - exact (proj1 (proj2 (proj2 (operations_frame 3 (tree afterDroot))))).
Defined.

Lemma print_needs_conditional_witness :
  conditional_ placeholder = None
  /\ print conditional_print placeholder "clique" (fun _ => "x"%string)
     = Undef NullConditional.
Proof.
  split; [reflexivity|].
  exact (proj1 (print_needs_conditional conditional_print placeholder
                  "clique" (fun _ => "x"%string)) eq_refl).
Defined.

(** * The further properties on the concrete tree *)

Import Example2.

Lemma treeSize_unchanged_witness :
  endsIn (request 10 fresh 4 0) afterDroot
  /\ treeSize (tree afterDroot) = treeSize (tree fresh).
Proof.
  assert (H : endsIn (request 10 fresh 4 0) afterDroot)
    by (left; exists [[3]]; reflexivity).
  split; [exact H|].
  exact (proj2 (proj2 (treeSize_unchanged toFactor parents jointBayesNet
                         0 root)) 10 fresh 4 0 afterDroot H).
Defined.

Lemma numCachedSeparatorMarginals_le_treeSize_witness :
  fitsInMemory (tree afterDroot)
  /\ (0 <= numCachedSeparatorMarginals (tree afterDroot)
      <= treeSize (tree afterDroot))%Z.
Proof.
  assert (H : fitsInMemory (tree afterDroot)) by reflexivity.
  split; [exact H|].
  exact (numCachedSeparatorMarginals_le_treeSize (tree afterDroot) H).
Defined.

Lemma numCachedSeparatorMarginals_le_populated_witness :
  fitsInMemory (tree afterCBthenDroot)
  /\ (numCachedSeparatorMarginals (tree afterCBthenDroot)
      <= populatedCount (tree afterCBthenDroot))%Z.
Proof.
  assert (H : fitsInMemory (tree afterCBthenDroot)) by reflexivity.
  split; [exact H|].
  exact (numCachedSeparatorMarginals_le_populated (tree afterCBthenDroot) H).
Defined.

Lemma numCachedSeparatorMarginals_exact_witness :
  wellFormed root
  /\ reachable toFactor parents jointBayesNet true root afterDroot
  /\ find 1 (tree afterDroot) = Some populatedA
  /\ fitsInMemory populatedA
  /\ numCachedSeparatorMarginals populatedA = populatedCount populatedA.
Proof.
  assert (Hf : find 1 (tree afterDroot) = Some populatedA) by reflexivity.
  assert (Hfit : fitsInMemory populatedA) by reflexivity.
  split; [exact root_wellFormed|]. split; [exact afterDroot_reachable|].
  split; [exact Hf|]. split; [exact Hfit|].
  exact (numCachedSeparatorMarginals_exact toFactor parents jointBayesNet
           root afterDroot 1 populatedA root_wellFormed afterDroot_reachable
           Hf Hfit).
Defined.


Lemma separatorMarginal_writes_on_path_witness :
  pathTo (tree fresh) 0 4 [4; 3; 2; 1]
  /\ endsIn (request 10 fresh 4 0) afterDroot
  /\ ~ In 5 [4; 3; 2; 1] /\ 5 <> 0
  /\ option_map cachedSeparatorMarginal_ (find 5 (tree afterDroot))
     = option_map cachedSeparatorMarginal_ (find 5 (tree fresh)).
Proof.
  assert (H : endsIn (request 10 fresh 4 0) afterDroot)
    by (left; exists [[3]]; reflexivity).
  assert (Hn : ~ In 5 [4; 3; 2; 1]) by (cbn; intuition discriminate).
  assert (Hr : 5 <> 0) by discriminate.
  split; [exact path_D_root|]. split; [exact H|]. split; [exact Hn|].
  split; [exact Hr|].
  exact (separatorMarginal_writes_on_path toFactor parents jointBayesNet
           fresh 4 0 [4; 3; 2; 1] 10 afterDroot 5 path_D_root H Hn Hr).
Defined.

Lemma path_D_root_afterCB : pathTo (tree afterCB) 0 4 [4; 3; 2; 1].
Proof.
  eapply path_step; [discriminate|reflexivity|reflexivity|].
  eapply path_step; [discriminate|reflexivity|reflexivity|].
  eapply path_step; [discriminate|reflexivity|reflexivity|].
  eapply path_step; [discriminate|reflexivity|reflexivity|].
  eapply path_end. reflexivity.
Defined.

Lemma separatorMarginal_eliminations_bound_witness :
  pathTo (tree afterCB) 0 4 [4; 3; 2; 1]
  /\ endsIn (request 10 afterCB 4 0) afterCBthenDroot
  /\ eliminations afterCBthenDroot
     <= eliminations afterCB + List.length [4; 3; 2; 1].
Proof.
  assert (H : endsIn (request 10 afterCB 4 0) afterCBthenDroot)
    by (left; exists [[3]]; reflexivity).
  split; [exact path_D_root_afterCB|]. split; [exact H|].
  exact (separatorMarginal_eliminations_bound toFactor parents jointBayesNet
           afterCB 4 0 [4; 3; 2; 1] 10 afterCBthenDroot
           path_D_root_afterCB H).
Defined.

Lemma separatorMarginal_eliminations_fresh_witness :
  pathTo (tree fresh) 0 4 [4; 3; 2; 1]
  /\ (forall x, In x [4; 3; 2; 1] -> cached (tree fresh) x = false)
  /\ request 10 fresh 4 0 = Ret [[3]] afterDroot
  /\ eliminations afterDroot
     = eliminations fresh + List.length [4; 3; 2; 1].
Proof.
  assert (Hm : forall x, In x [4; 3; 2; 1] -> cached (tree fresh) x = false).
  { intros x Hx. cbn in Hx.
    repeat (destruct Hx as [<-|Hx]; [reflexivity|]). destruct Hx. }
  assert (H : request 10 fresh 4 0 = Ret [[3]] afterDroot) by reflexivity.
  split; [exact path_D_root|]. split; [exact Hm|]. split; [exact H|].
  exact (separatorMarginal_eliminations_fresh toFactor parents jointBayesNet
           fresh 4 0 [4; 3; 2; 1] 10 [[3]] afterDroot path_D_root Hm H).
Defined.


Lemma populated_parent_populated_witness :
  wellFormed root
  /\ reachable toFactor parents jointBayesNet true root afterDroot
  /\ (exists n, find 2 (tree afterDroot) = Some n
                /\ cachedSeparatorMarginal_ n <> None
                /\ parent_ n = Some 1)
  /\ 2 <> this root
  /\ cached (tree afterDroot) 1 = true.
Proof.
  assert (Hne : 2 <> this root) by discriminate.
  split; [exact root_wellFormed|]. split; [exact afterDroot_reachable|].
  split; [eexists; split; [reflexivity|split; [discriminate|reflexivity]]|].
  split; [exact Hne|].
  refine (populated_parent_populated toFactor parents jointBayesNet
            root afterDroot 2 1 _ root_wellFormed afterDroot_reachable
            eq_refl _ Hne eq_refl).
  discriminate.
Defined.

Lemma conditional_equals_symmetric (tol : Tol) (a b : Conditional) :
  conditional_equals a b tol = conditional_equals b a tol.
Proof.
  unfold conditional_equals.
  destruct (list_eq_dec Nat.eq_dec (fst a) (fst b)),
    (list_eq_dec Nat.eq_dec (fst b) (fst a)); try congruence;
    destruct (list_eq_dec Nat.eq_dec (snd a) (snd b)),
      (list_eq_dec Nat.eq_dec (snd b) (snd a)); congruence.
Defined.

Lemma equals_symmetric_witness :
  (forall a b, conditional_equals a b 0 = conditional_equals b a 0)
  /\ equals conditional_equals cliqueA placeholder 0
     = equals conditional_equals placeholder cliqueA 0.
Proof.
  split; [exact (conditional_equals_symmetric 0)|].
  exact (equals_symmetric conditional_equals cliqueA placeholder 0
           (conditional_equals_symmetric 0)).
Defined.

Lemma marginal2_idempotent_witness :
  joint 10 fresh 4 0 = Ret [[3]; [4; 3]] afterDroot
  /\ joint 1 afterDroot 4 0 = Ret [[3]; [4; 3]] afterDroot.
Proof.
  assert (H : joint 10 fresh 4 0 = Ret [[3]; [4; 3]] afterDroot)
    by reflexivity.
  split; [exact H|].
  exact (marginal2_idempotent toFactor parents jointBayesNet 10 0 fresh
           afterDroot 4 0 [[3]; [4; 3]] H).
Defined.

Lemma marginal2_of_reference_witness :
  find 0 (tree fresh) = Some root
  /\ cachedSeparatorMarginal_ root = None
  /\ conditional_ root = Some ([0], [])
  /\ exists st', joint 1 fresh 0 0 = Ret [toFactor ([0], [])] st'
                 /\ eliminations st' = eliminations fresh.
Proof.
  split; [reflexivity|]. split; [reflexivity|]. split; [reflexivity|].
  exact (marginal2_of_reference toFactor parents jointBayesNet 0 fresh 0
           root ([0], []) eq_refl eq_refl eq_refl).
Defined.


Lemma separator_setminus_B_spec_witness :
  conditional_ cliqueC = Some ([3], [2])
  /\ conditional_ cliqueA = Some ([1], [0])
  /\ exists S_setminus_B,
      separator_setminus_B Example.parents keys cliqueC cliqueA
      = Value S_setminus_B
      /\ StronglySorted Nat.lt S_setminus_B
      /\ forall k, In k S_setminus_B
                   <-> In k (Example.parents ([3], [2]))
                       /\ ~ In k (keys ([1], [0])).
Proof.
  split; [reflexivity|]. split; [reflexivity|].
  exact (separator_setminus_B_spec Example.parents keys cliqueC cliqueA
           ([3], [2]) ([1], [0]) eq_refl eq_refl).
Defined.

Lemma separator_setminus_B_empty_witness :
  conditional_ cliqueB = Some ([2], [1])
  /\ conditional_ cliqueA = Some ([1], [0])
  /\ (forall k, In k (Example.parents ([2], [1])) -> In k (keys ([1], [0])))
  /\ separator_setminus_B Example.parents keys cliqueB cliqueA = Value [].
Proof.
  assert (H : forall k, In k (Example.parents ([2], [1])) ->
                        In k (keys ([1], [0])))
    by (intros k [<-|[]]; now left).
  split; [reflexivity|]. split; [reflexivity|]. split; [exact H|].
  exact (separator_setminus_B_empty Example.parents keys cliqueB cliqueA
           ([2], [1]) ([1], [0]) eq_refl eq_refl H).
Defined.

Lemma graphKeys_increasing :
  StronglySorted Nat.lt (graphKeys [[2; 1]; [1; 0]]).
Proof. cbn. repeat constructor. Defined.

Lemma shortcut_indices_spec_witness :
  StronglySorted Nat.lt (graphKeys [[2; 1]; [1; 0]])
  /\ exists keep,
      shortcut_indices Example.parents keys graphKeys cliqueC cliqueA
                       [[2; 1]; [1; 0]] = Value keep
      /\ NoDup keep
      /\ forall k, In k keep
                   <-> In k (graphKeys [[2; 1]; [1; 0]])
                       /\ (In k (Example.parents ([3], [2]))
                           \/ In k (keys ([1], [0]))).
Proof.
  split; [exact graphKeys_increasing|].
  exact (shortcut_indices_spec Example.parents keys graphKeys cliqueC cliqueA
           ([3], [2]) ([1], [0]) [[2; 1]; [1; 0]] eq_refl eq_refl
           graphKeys_increasing).
Defined.

Lemma shortcut_indices_frontals_first_witness :
  separator_setminus_B Example.parents keys cliqueC cliqueA = Value [2]
  /\ (forall k, In k [2] -> In k (graphKeys [[2; 1]; [1; 0]]))
  /\ exists keep,
      shortcut_indices Example.parents keys graphKeys cliqueC cliqueA
                       [[2; 1]; [1; 0]] = Value keep
      /\ firstn (List.length [2]) keep = [2].
Proof.
  assert (H : forall k, In k [2] -> In k (graphKeys [[2; 1]; [1; 0]]))
    by (intros k [<-|[]]; cbn; tauto).
  split; [reflexivity|]. split; [exact H|].
  exact (shortcut_indices_frontals_first Example.parents keys graphKeys
           cliqueC cliqueA [[2; 1]; [1; 0]] [2] eq_refl graphKeys_increasing
           H).
Defined.

Lemma shortcut_stops_witness :
  find 1 (tree fresh) = Some cliqueA /\ find 0 (tree fresh) = Some root
  /\ (forall k, In k (Example.parents ([1], [0])) -> In k (keys ([0], [])))
  /\ short 1 fresh 1 0 = Ret [] fresh.
Proof.
  assert (H : forall k, In k (Example.parents ([1], [0])) ->
                        In k (keys ([0], [])))
    by (intros k [<-|[]]; now left).
  split; [reflexivity|]. split; [reflexivity|]. split; [exact H|].
  exact (shortcut_stops Example.parents keys graphKeys toFactor fromBayesNet
           conditionalBayesNet 0 fresh 1 0 cliqueA root ([1], [0]) ([0], [])
           eq_refl eq_refl eq_refl eq_refl (or_intror H)).
Defined.

Lemma shortcut_not_memoized_witness :
  short 10 fresh 4 0 = Ret [([3], [0])] (mkState root 3)
  /\ short 10 (mkState root 3) 4 0 = Ret [([3], [0])] (mkState root 6).
Proof.
  assert (H : short 10 fresh 4 0 = Ret [([3], [0])] (mkState root 3))
    by reflexivity.
  split; [exact H|].
  exact (proj2 (proj2 (shortcut_not_memoized Example.parents keys graphKeys
                         toFactor fromBayesNet conditionalBayesNet 10 fresh
                         (mkState root 3) 4 0 [([3], [0])] H))).
Defined.

Lemma evaluateError_never_throws_witness :
  throwCheirality_ Camera.quiet = false
  /\ Camera.evaluate Camera.quiet 5 1 2 9 true true false false
     <> Rethrown "CheiralityException"%string (Some 0) (Some 0) None None
                 EmptyString.
Proof.
  split; [reflexivity|].
  exact (proj1 (evaluateError_never_throws Camera.compose Camera.project
                  Nat.sub (fun p => p) Nat.mul Camera.zeros Camera.ones
                  Nat.mul 2 (fun K => K) 5 Camera.what
                  Camera.DefaultKeyFormatter 5 1 2 9 true true false false)
               Camera.quiet eq_refl _ _ _ _ _ _).
Defined.

Lemma evaluateError_behind_camera_witness :
  Camera.project (fst (fst (Camera.compose 5 1))) 9 2
  = inl "CheiralityException"%string
  /\ Camera.evaluate Camera.strict 5 1 2 9 false false true false
     = Rethrown "CheiralityException"%string None None (Some 0) None
                ("CheiralityException: Landmark 2 moved behind camera 1"
                 ++ endl)%string
  /\ Camera.evaluate Camera.quiet 5 1 2 9 false false true false
     = Returned 18 None None (Some 0) None EmptyString.
Proof.
  split; [reflexivity|]. split.
  - exact (evaluateError_behind_camera Camera.compose Camera.project
             Nat.sub (fun p => p) Nat.mul Camera.zeros Camera.ones
             Nat.mul 2 (fun K => K) 5 Camera.what Camera.DefaultKeyFormatter
             Camera.strict 5 1 2 9 false false true false
             "CheiralityException"%string eq_refl).
  - exact (evaluateError_behind_camera Camera.compose Camera.project
             Nat.sub (fun p => p) Nat.mul Camera.zeros Camera.ones
             Nat.mul 2 (fun K => K) 5 Camera.what Camera.DefaultKeyFormatter
             Camera.quiet 5 1 2 9 false false true false
             "CheiralityException"%string eq_refl).
Defined.

Lemma evaluateError_empty_optional_witness :
  Camera.project (fst (fst (Camera.compose 5 1))) 9 20 = inr (14, 3, 4, 5)
  /\ Camera.evaluate Camera.quiet 5 1 20 9 false false true false
     = EmptyOptional
  /\ Camera.evaluate Camera.quiet 5 1 20 9 true true true false
     = Returned 7 (Some 3) (Some 6) (Some 4) None EmptyString.
Proof.
  split; [reflexivity|]. split; [|reflexivity].
  exact (proj2 (evaluateError_empty_optional Camera.compose Camera.project
                  Nat.sub (fun p => p) Nat.mul Camera.zeros Camera.ones
                  Nat.mul 2 (fun K => K) 5 Camera.what
                  Camera.DefaultKeyFormatter Camera.quiet 5 1 20 9
                  false false true false (14, 3, 4, 5) eq_refl)
               (conj eq_refl eq_refl)).
Defined.

Lemma evaluateError_same_error_witness :
  Camera.evaluate Camera.quiet 5 1 20 9 true true true false
  = Returned 7 (Some 3) (Some 6) (Some 4) None EmptyString
  /\ Camera.evaluate Camera.quiet 5 1 20 9 false false false false
     = Returned 7 None None None None EmptyString
  /\ 7 = 7 /\ EmptyString = EmptyString.
Proof.
  assert (H1 : Camera.evaluate Camera.quiet 5 1 20 9 true true true false
               = Returned 7 (Some 3) (Some 6) (Some 4) None EmptyString)
    by reflexivity.
  assert (H2 : Camera.evaluate Camera.quiet 5 1 20 9 false false false false
               = Returned 7 None None None None EmptyString)
    by reflexivity.
  split; [exact H1|]. split; [exact H2|].
  exact (evaluateError_same_error Camera.compose Camera.project
           Nat.sub (fun p => p) Nat.mul Camera.zeros Camera.ones
           Nat.mul 2 (fun K => K) 5 Camera.what Camera.DefaultKeyFormatter
           Camera.quiet 5 1 20 9 true true true false false false false false
           _ _ _ _ _ _ _ _ _ _ _ _ H1 H2).
Defined.
